(** * The GitLab backend of netlify-cms: request, cache, batch fetch, persist

    A shallow embedding of [src/backends/gitlab/API.js] and
    [src/backends/gitlab/implementation.js].

    - JavaScript strings are sequences of UTF-16 code units ([list N]).
    - A promise that has settled is a value of [settled E A].
    - The network is an oracle that answers each request the client issues;
      asynchronous code that interleaves ([fetchFiles]) is a step function on
      an explicit state, driven by the events of the event loop. *)

From Stdlib Require Import ZArith NArith Floats String Ascii Lia.
From stdpp Require Import base option list gmap fin_maps strings.

Local Open Scope Z_scope.
#[local] Set Warnings "-register-all".

(** ** JavaScript strings *)

Module Js.

(** A string value: its UTF-16 code units. *)
Abbreviation jsstring := (list N).

(** The code units of a literal that is written in ASCII. *)
Fixpoint lit (s : string) : jsstring :=
  match s with
  | EmptyString => []
  | String a s' => N_of_ascii a :: lit s'
  end.

(** [prefix_at p s]: [s] starts with the code units [p]. *)
Fixpoint prefix_at (p s : jsstring) : bool :=
  match p, s with
  | [], _ => true
  | _ :: _, [] => false
  | a :: p', b :: s' => N.eqb a b && prefix_at p' s'
  end.

(** [includes p s]: [p] occurs in [s]; this is whether [s.match(/p/)] is
    non-null for a pattern [p] made of literal characters. *)
Fixpoint includes (p s : jsstring) : bool :=
  prefix_at p s ||
  match s with
  | [] => false
  | _ :: s' => includes p s'
  end.

(** Truthiness of a string: only the empty string is falsy. *)
Definition truthy_string (s : jsstring) : bool :=
  match s with [] => false | _ :: _ => true end.

End Js.

Import Js.

(** ** Values that travel through the client *)

(** A value produced by [JSON.parse]. Numbers are IEEE doubles; an object
    is its list of properties, each key occurring once. *)
Inductive json : Type :=
  | JNull
  | JBool (b : bool)
  | JNum (f : float)
  | JStr (s : jsstring)
  | JArr (items : list json)
  | JObj (props : list (jsstring * json)).

(** Reading property [k] of an object's property list; [None] is
    [undefined]. *)
Fixpoint get_prop (k : jsstring) (props : list (jsstring * json)) : option json :=
  match props with
  | [] => None
  | (k', v) :: rest => if decide (k' = k) then Some v else get_prop k rest
  end.

(** Truthiness of a JSON value. *)
Definition truthy_json (j : json) : bool :=
  match j with
  | JNull => false
  | JBool b => b
  | JNum f => negb (PrimFloat.eqb f 0%float) && negb (PrimFloat.is_nan f)
  | JStr s => truthy_string s
  | JArr _ | JObj _ => true
  end.

(** What [request] resolves to: the raw text of the response, or its parsed
    JSON. *)
Inductive body : Type :=
  | BodyText (t : jsstring)
  | BodyJson (j : json).

Definition truthy_body (b : body) : bool :=
  match b with
  | BodyText t => truthy_string t
  | BodyJson j => truthy_json j
  end.

(** A settled promise. *)
Inductive settled (E A : Type) : Type :=
  | Fulfilled (a : A)
  | Rejected (e : E).
Arguments Fulfilled {E A} a.
Arguments Rejected {E A} e.

(** Modelled from the spec: the class [APIError] of
    [src/valueObjects/errors], which is not among the sources. It carries
    the message, the last known HTTP status and the tag of the backend.
    [NativeError] is an error object raised by the engine itself
    ([TypeError], ...); it has no [status] property. *)
Inductive thrown : Type :=
  | APIError (message : option json) (status : option Z) (api : string)
  | NativeError (name : string).

(** [err.status], [None] being [undefined]. *)
Definition status_of (err : thrown) : option Z :=
  match err with
  | APIError _ st _ => st
  | NativeError _ => None
  end.

(** ** [safeFilepath] (API.js, lines 165-168)

    [filepath.replace(/[^a-z0-9_\-@./]/gi, '')]. The pattern is not a unicode
    pattern, so it is matched against single code units; with the [i] flag a
    code unit [ch] is compared with the members of the class after
    canonicalisation (ECMA-262, 21.2.2.8.2).  The upper-casing of the code
    units from 128 on comes from the Unicode tables, it is a parameter
    [upper_hi] of the model. *)

Section SafeFilepath.

Variable upper_hi : N → N.

(** [String.prototype.toUpperCase] on one code unit. *)
Definition toUpperCase (ch : N) : N :=
  if (ch <? 128)%N
  then (if (97 <=? ch)%N && (ch <=? 122)%N then (ch - 32)%N else ch)
  else upper_hi ch.

(** [Canonicalize(ch)] for a pattern with the [i] flag and without the [u]
    flag: a code unit from 128 on never canonicalises to an ASCII one. *)
Definition canonicalize (ch : N) : N :=
  let cu := toUpperCase ch in
  if (128 <=? ch)%N && (cu <? 128)%N then ch else cu.

(** The members of the class [a-z0-9_\-@./], as written in the pattern. *)
Definition class_members : list N :=
  map N.of_nat (seq 97 26) ++ map N.of_nat (seq 48 10) ++ lit "_-@./".

(** The class matcher: some member canonicalises to what [ch] does. *)
Definition class_matches (ch : N) : bool :=
  existsb (λ a, N.eqb (canonicalize a) (canonicalize ch)) class_members.

(** The negated class [[^...]] matches when the class does not; each match
    is replaced by the empty string (flag [g]: every match). *)
Definition safeFilepath (filepath : jsstring) : jsstring :=
  filter (λ ch, class_matches ch = true) filepath.

End SafeFilepath.

(** The allowed set as the specification words it: ASCII letters, digits
    and [_ - @ . /]. *)
Definition spec_allowed (ch : N) : bool :=
  ((65 <=? ch) && (ch <=? 90) || (97 <=? ch) && (ch <=? 122) ||
   (48 <=? ch) && (ch <=? 57) ||
   (ch =? 95) || (ch =? 45) || (ch =? 64) || (ch =? 46) || (ch =? 47))%N.

(** ** The client object (API.js, lines 6-13) *)

Record API := {
  api_root : jsstring;
  token : option jsstring;
  branch : jsstring;
  repo : jsstring;
  repoURL : jsstring;   (* [`/projects/${encodeURIComponent(repo)}/repository`] *)
}.

(** ** Requests *)

(** One entry of the [actions] array of a commit; the properties are
    assigned one by one in [persistFiles], [None] is a property not yet
    assigned. *)
Record fileObj := {
  file_path : jsstring;
  content : option jsstring;
  encoding : option string;
  action : option string;
}.

(** The object that [commit] serialises with [JSON.stringify]. *)
Record commit_payload := {
  branchName : jsstring;
  commitMessage : jsstring;
  actions : list fileObj;
}.

(** The [options] argument of [request]. *)
Record options := {
  method : option string;
  params : list (string * jsstring);
  payload : option commit_payload;
  cache : option bool;
}.

(** A call [this.request(path, options)]. *)
Record call := {
  call_path : jsstring;
  call_options : options;
}.

(** The [Response] object of the Fetch API, as far as [request] looks at it:
    [json_body] is what [response.json()] settles to ([Rejected]: the body
    is not JSON, the reason is a [SyntaxError] with that message). *)
Record response := {
  status : Z;
  contentType : option jsstring;
  text_body : jsstring;
  json_body : settled jsstring json;
}.

(** [response.ok]: the status is in the range 200-299. *)
Definition ok (r : response) : bool := (200 <=? status r) && (status r <=? 299).

(** What [fetch(url, ...)] settles to: a transport failure rejects with a
    [TypeError] carrying a message. *)
Inductive fetched : Type :=
  | NetworkError (msg : jsstring)
  | Response (r : response).

(** A rejection reason inside the promise chain of [request]. *)
Inductive reason : Type :=
  | ErrorObject (msg : jsstring)
  | JsonValue (j : json).

(** [j.message] for a JSON value other than [null]: only an object has
    properties of its own. *)
Definition json_message (j : json) : option json :=
  match j with
  | JObj props => get_prop (lit "message") props
  | _ => None
  end.

(** [error.message]; the outer [None] is the [TypeError] of reading a
    property of [null]. *)
Definition message_of (error : reason) : option (option json) :=
  match error with
  | ErrorObject msg => Some (Some (JStr msg))
  | JsonValue JNull => None
  | JsonValue j => Some (json_message j)
  end.

(** [parseJsonResponse] (API.js, lines 33-41). *)
Definition parseJsonResponse (r : response) : settled reason json :=
  match json_body r with
  | Rejected msg => Rejected (ErrorObject msg)
  | Fulfilled j => if negb (ok r) then Rejected (JsonValue j) else Fulfilled j
  end.

(** The [.catch] handler of [request] (lines 68-70):
    [throw new APIError(error.message, responseStatus, 'GitLab')]. *)
Definition request_catch (responseStatus : option Z) (error : reason) : thrown :=
  match message_of error with
  | Some m => APIError m responseStatus "GitLab"
  | None => NativeError "TypeError"
  end.

(** [contentType && contentType.match(/json/)]. *)
Definition is_json (contentType : option jsstring) : bool :=
  match contentType with
  | Some ct => truthy_string ct && includes (lit "json") ct
  | None => false
  end.

(** [request] (API.js, lines 56-71), from the point where [fetch] has
    settled. *)
Definition request (f : fetched) : settled thrown body :=
  match f with
  | NetworkError msg => Rejected (request_catch None (ErrorObject msg))
  | Response r =>
      let responseStatus := Some (status r) in
      if is_json (contentType r) then
        match parseJsonResponse r with
        | Fulfilled j => Fulfilled (BodyJson j)
        | Rejected e => Rejected (request_catch responseStatus e)
        end
      else Fulfilled (BodyText (text_body r))
  end.

(** The network: what [fetch] settles to for each call the client makes. *)
Abbreviation network := (call → fetched).

(** ** [readFile] and the cache (API.js, lines 73-88) *)

(** The key [`gh.${sha}`]. *)
Definition cache_key (sha : jsstring) : jsstring := lit "gh." ++ sha.

(** The value of [cached] in the callback of line 75: [getItem] gives
    [null] for a key that is absent, and without a [sha] the cache is not
    consulted. *)
Definition readFile_cached (store : gmap jsstring body) (sha : option jsstring)
  : option body :=
  match sha with
  | Some h => if truthy_string h then store !! cache_key h else None
  | None => None
  end.

(** [if (cached) { return cached; }]: the hit, if there is one. *)
Definition readFile_hit (store : gmap jsstring body) (sha : option jsstring)
  : option body :=
  match readFile_cached store sha with
  | Some c => if truthy_body c then Some c else None
  | None => None
  end.

(** The live request of lines 78-81. *)
Definition readFile_call (api : API) (path : jsstring) (branch' : jsstring) : call :=
  {| call_path := repoURL api ++ lit "/blobs/" ++ branch';
     call_options := {| method := None; params := [("filepath"%string, path)];
                        payload := None; cache := Some false |} |}.

(** Lines 82-84: [if (sha) { LocalForage.setItem(`gh.${sha}`, result); }]. *)
Definition readFile_store (store : gmap jsstring body) (sha : option jsstring)
    (result : body) : gmap jsstring body :=
  match sha with
  | Some h => if truthy_string h then <[cache_key h := result]> store else store
  | None => store
  end.

(** What one call of [readFile] did. *)
Record read_run := {
  read_result : settled thrown body;
  read_store : gmap jsstring body;
  read_calls : list call;
}.

(** [readFile(path, sha, branch = this.branch)], run to completion against
    a network and a cache. *)
Definition readFile (api : API) (net : network) (store : gmap jsstring body)
    (path : jsstring) (sha : option jsstring) (branch_arg : option jsstring)
  : read_run :=
  let branch' := default (branch api) branch_arg in
  match readFile_hit store sha with
  | Some c => {| read_result := Fulfilled c; read_store := store; read_calls := [] |}
  | None =>
      let c := readFile_call api path branch' in
      match request (net c) with
      | Fulfilled result =>
          {| read_result := Fulfilled result;
             read_store := readFile_store store sha result;
             read_calls := [c] |}
      | Rejected e =>
          {| read_result := Rejected e; read_store := store; read_calls := [c] |}
      end
  end.

(** [Promise.all]: [order] lists the indices of the promises in the order
    in which they settle. The first rejection wins; without a rejection the
    values come in the order of the promises. *)
Definition rejection {E A} (p : settled E A) : option E :=
  match p with Rejected e => Some e | Fulfilled _ => None end.

Definition fulfilment {E A} (p : settled E A) : option A :=
  match p with Fulfilled a => Some a | Rejected _ => None end.

Definition Promise_all {E A} (order : list nat) (ps : list (settled E A))
  : settled E (list A) :=
  match omap (λ i, ps !! i ≫= rejection) order with
  | e :: _ => Rejected e
  | [] => Fulfilled (omap fulfilment ps)
  end.

(** ** [persistFiles] (API.js, lines 96-132 and 159-176) *)

(** Modelled from the spec: the files handed to [persistFiles]. The class
    [AssetProxy] of [src/valueObjects/AssetProxy] is not among the sources;
    the spec describes it as an opaque payload able to produce a base64
    encoding of itself, so an asset carries [base64], what the promise of
    its [toBase64()] settles to. Any other file is encoded from its [raw] text. *)
Inductive file : Type :=
  | TextFile (path raw : jsstring)
  | AssetProxy (path : jsstring) (base64 : settled thrown jsstring).

(** [file.path]. *)
Definition path_of (f : file) : jsstring :=
  match f with
  | TextFile p _ => p
  | AssetProxy p _ => p
  end.

(** What the promise of one file did: the calls it issued, oldest first,
    and what it settled to. *)
Record persist_run := {
  run_file : file;
  run_calls : list call;
  run_result : settled thrown body;
}.

(** [getFile(path)] (lines 96-100). *)
Definition getFile_call (api : API) (path : jsstring) : call :=
  {| call_path := repoURL api ++ lit "/files";
     call_options := {| method := None;
                        params := [("file_path"%string, path); ("ref"%string, branch api)];
                        payload := None; cache := None |} |}.

(** [commit(commitMessage, actions)] (lines 170-176). *)
Definition commit_call (api : API) (message : jsstring) (acts : list fileObj) : call :=
  {| call_path := repoURL api ++ lit "/commits";
     call_options := {| method := Some "POST"%string; params := [];
                        payload := Some {| branchName := branch api;
                                           commitMessage := message;
                                           actions := acts |};
                        cache := None |} |}.

Definition set_content (o : fileObj) (c : jsstring) : fileObj :=
  {| file_path := file_path o; content := Some c;
     encoding := Some "base64"%string; action := action o |}.

Definition set_action (o : fileObj) (a : string) : fileObj :=
  {| file_path := file_path o; content := content o;
     encoding := encoding o; action := Some a |}.

Section Persist.

Variable upper_hi : N → N.
(** [Base64.encode] of the package js-base64. *)
Variable Base64_encode : jsstring → jsstring.

Variable api : API.
Variable net : network.

(** [getFile(path)] and [commit(commitMessage, actions)]: what their
    promises settle to. *)
Definition getFile (path : jsstring) : settled thrown body :=
  request (net (getFile_call api path)).

Definition commit (message : jsstring) (acts : list fileObj) : settled thrown body :=
  request (net (commit_call api message acts)).

(** [toBase64(str)] (lines 159-163). *)
Definition toBase64 (str : jsstring) : settled thrown jsstring :=
  Fulfilled (Base64_encode str).

(** Lines 109-114: the base64 text of the file. *)
Definition encode (f : file) : settled thrown jsstring :=
  match f with
  | AssetProxy _ b64 => b64
  | TextFile _ raw => toBase64 raw
  end.

(** Line 128: the commit of one file, which ends its promise. *)
Definition persist_commit (f : file) (message : jsstring) (o : fileObj)
    (issued : list call) : persist_run :=
  {| run_file := f; run_calls := issued ++ [commit_call api message [o]];
     run_result := commit message [o] |}.

(** The rejection handler of lines 121-127; it is the second argument of
    [then], so it receives the rejection of any earlier link of the chain. *)
Definition persist_rejected (f : file) (message : jsstring) (o : fileObj)
    (issued : list call) (err : thrown) : persist_run :=
  if decide (status_of err = Some 404)
  then persist_commit f message (set_action o "create") issued
  else {| run_file := f; run_calls := issued; run_result := Rejected err |}.

(** The promise built for one file by the callback of [files.map]
    (lines 105-129). *)
Definition persistFile (message : jsstring) (f : file) : persist_run :=
  let o := {| file_path := safeFilepath upper_hi (path_of f);
              content := None; encoding := None; action := None |} in
  match encode f with
  | Rejected err => persist_rejected f message o [] err
  | Fulfilled c =>
      let o := set_content o c in
      let probe := getFile_call api (path_of f) in
      match getFile (path_of f) with
      | Fulfilled _ => persist_commit f message (set_action o "update") [probe]
      | Rejected err => persist_rejected f message o [probe] err
      end
  end.

(** [persistFiles(entry, mediaFiles, options)]: the promises of line 105,
    in the order of [files]. *)
Definition persistFiles (entry : file) (mediaFiles : list file)
    (message : jsstring) : list persist_run :=
  let files := mediaFiles ++ [entry] in
  map (persistFile message) files.

(** The promise that [persistFiles] returns (line 131), the promises of
    the files settling in the order [order]. *)
Definition persistFiles_result (order : list nat) (entry : file)
    (mediaFiles : list file) (message : jsstring)
  : settled thrown (list body) :=
  Promise_all order (map run_result (persistFiles entry mediaFiles message)).

End Persist.

(** The commit calls among the calls of a run. *)
Definition is_commit (c : call) : bool :=
  match payload (call_options c) with Some _ => true | None => false end.

Definition commits_of (r : persist_run) : list call :=
  filter (λ c, is_commit c = true) (run_calls r).

(** ** The backend object (implementation.js, lines 9-24) *)

(** The configuration, as far as the constructor reads it: the values at
    [["backend", "repo"]], [["backend", "branch"]] and ["publish_mode"];
    [None] is a key that is not set. *)
Record config := {
  backend_repo : option jsstring;
  backend_branch : option jsstring;
  publish_mode : option jsstring;
}.

(** Modelled from the spec: the constant [EDITORIAL_WORKFLOW] of
    [src/constants/publishModes], which is not among the sources; the spec
    gives its value as ["editorial_workflow"]. *)
Definition EDITORIAL_WORKFLOW : jsstring := lit "editorial_workflow".

(** Modelled from the spec: [EditorialWorkflowError] of
    [src/valueObjects/errors], which is not among the sources; it is the
    configuration error for the unsupported workflow and carries its
    message and a flag. [Error] is the built-in error, thrown for the
    missing repository. *)
Inductive construction_error : Type :=
  | Error (message : string)
  | EditorialWorkflowError (message : string) (notUnderEditorialWorkflow : bool).

Record GitLab := {
  gl_config : config;
  gl_repo : jsstring;
  gl_branch : jsstring;
  gl_token : jsstring;
}.

(** [new GitLab(config, proxied = false)]. The constructor receives no
    network and builds no [API] object: that happens in [setUser] and
    [authenticate]. *)
Definition constructor (cfg : config) (proxied : bool)
  : construction_error + GitLab :=
  if negb proxied && bool_decide (backend_repo cfg = None)
  then inl (Error ("The GitLab backend needs a "
                   +:+ String "034"%char ("repo" +:+ String "034"%char
                         " in the backend configuration.")))
  else
    let this := {| gl_config := cfg;
                   gl_repo := default [] (backend_repo cfg);
                   gl_branch := default (lit "master") (backend_branch cfg);
                   gl_token := [] |} in
    if bool_decide (publish_mode cfg = Some EDITORIAL_WORKFLOW)
    then inl (EditorialWorkflowError
                "The GitLab backend does not support the Editorial Workflow." false)
    else inr this.

(** ** The semaphore *)

(** Modelled from the spec: the package [semaphore] that
    implementation.js imports is not among the sources. The spec describes
    an admission gate with a fixed number of permits: a task begins once it
    has a permit, the others wait in a queue, and releasing a permit hands
    it to the head of the queue, whose task is started on the next tick.
    A task is named by the index of the file it reads. *)
Record semaphore := {
  capacity : Z;
  current : Z;
  queue : list nat;
}.

(** Modelled from the spec: [sem.take(task)] of that package. The task
    begins at once when a permit is free and is queued otherwise; the
    boolean tells whether it began. *)
Definition take (sem : semaphore) (task : nat) : semaphore * bool :=
  if capacity sem <? current sem + 1
  then ({| capacity := capacity sem; current := current sem;
           queue := queue sem ++ [task] |}, false)
  else ({| capacity := capacity sem; current := current sem + 1;
           queue := queue sem |}, true).

(** Modelled from the spec: [sem.leave()] of that package. The permit is
    given back and, when a task waits, handed on to the head of the queue,
    which goes to [nextTick]; [None] is the error of leaving more often
    than taking. *)
Definition leave (sem : semaphore) : option (semaphore * option nat) :=
  let cur := current sem - 1 in
  match queue sem with
  | [] =>
      if cur <? 0 then None
      else Some ({| capacity := capacity sem; current := cur; queue := [] |}, None)
  | task :: rest =>
      if capacity sem <? cur + 1
      then Some ({| capacity := capacity sem; current := cur;
                    queue := task :: rest |}, None)
      else Some ({| capacity := capacity sem; current := cur + 1;
                    queue := rest |}, Some task)
  end.

(** ** [fetchFiles] (implementation.js, lines 7 and 61-76) *)

Definition MAX_CONCURRENT_DOWNLOADS : Z := 10.

Record FileRef := {
  fr_path : jsstring;
  fr_sha : option jsstring;
  fr_label : option jsstring;
}.

(** The object [{ file, data }]. *)
Record FetchedFile := {
  ff_file : FileRef;
  ff_data : body;
}.

(** Where a call of [readFile] that has begun stands: waiting for the
    cache (line 74), or for the network (line 78). *)
Inductive phase : Type := Lookup | Fetching.

(** The state of one call of [fetchFiles] between two turns of the event
    loop. *)
Record state := {
  sem : semaphore;
  ticks : list nat;                   (* tasks handed to [nextTick] *)
  reads : gmap nat phase;             (* the calls of [readFile] in progress *)
  values : list (option FetchedFile); (* the values gathered by [Promise.all] *)
  result : option (settled thrown (list FetchedFile));
                                      (* the promise that [fetchFiles] returned *)
  store : gmap jsstring body;         (* LocalForage *)
  calls : list call;                  (* the requests issued so far *)
}.

(** What the event loop delivers: the next tick, the answer of the cache to
    read [i], the answer of the network to the request of read [i]. *)
Inductive event : Type :=
  | Tick
  | CacheAnswer (i : nat)
  | NetAnswer (i : nat) (f : fetched).

Section FetchFiles.

Variable api : API.
Variable files : list FileRef.

(** The task of file [i] runs: [readFile] is called and asks the cache. *)
Definition start (i : nat) (s : state) : state :=
  {| sem := sem s; ticks := ticks s; reads := <[i := Lookup]> (reads s);
     values := values s; result := result s; store := store s; calls := calls s |}.

(** The read [i] is over. *)
Definition finish (i : nat) (s : state) : state :=
  {| sem := sem s; ticks := ticks s; reads := delete i (reads s);
     values := values s; result := result s; store := store s; calls := calls s |}.

(** [sem.leave()] within a handler of line 66-72. *)
Definition release (s : state) : option state :=
  match leave (sem s) with
  | None => None
  | Some (sem', next) =>
      Some {| sem := sem'; ticks := ticks s ++ option_list next; reads := reads s;
              values := values s; result := result s; store := store s;
              calls := calls s |}
  end.

(** [Promise.all] looks at its values: once none is missing the promise is
    fulfilled with them, in the order of the promises. *)
Definition gather (vs : list (option FetchedFile))
  : option (settled thrown (list FetchedFile)) :=
  Fulfilled <$> mapM id vs.

(** [resolve({ file, data })] for file [i], and the reaction of
    [Promise.all] to it; a promise that has settled stays as it is. *)
Definition resolve (i : nat) (file : FileRef) (data : body) (s : state) : state :=
  let vs := <[i := Some {| ff_file := file; ff_data := data |}]> (values s) in
  {| sem := sem s; ticks := ticks s; reads := reads s; values := vs;
     result := match result s with Some r => Some r | None => gather vs end;
     store := store s; calls := calls s |}.

(** [reject(err)], and the reaction of [Promise.all] to it. *)
Definition reject (err : thrown) (s : state) : state :=
  {| sem := sem s; ticks := ticks s; reads := reads s; values := values s;
     result := match result s with Some r => Some r | None => Some (Rejected err) end;
     store := store s; calls := calls s |}.

(** The cache missed: the request of [readFile] goes out. *)
Definition send (i : nat) (file : FileRef) (s : state) : state :=
  {| sem := sem s; ticks := ticks s; reads := <[i := Fetching]> (reads s);
     values := values s; result := result s; store := store s;
     calls := calls s ++ [readFile_call api (fr_path file) (branch api)] |}.

(** Line 83: the result is put in the cache. *)
Definition remember (file : FileRef) (data : body) (s : state) : state :=
  {| sem := sem s; ticks := ticks s; reads := reads s; values := values s;
     result := result s; store := readFile_store (store s) (fr_sha file) data;
     calls := calls s |}.

(** One turn of the event loop. [None]: the event cannot happen in [s], or
    a handler raised an error. *)
Definition step (s : state) (e : event) : option state :=
  match e with
  | Tick =>
      match ticks s with
      | [] => None
      | i :: rest =>
          Some (start i {| sem := sem s; ticks := rest; reads := reads s;
                           values := values s; result := result s;
                           store := store s; calls := calls s |})
      end
  | CacheAnswer i =>
      match reads s !! i, files !! i with
      | Some Lookup, Some file =>
          match readFile_hit (store s) (fr_sha file) with
          | Some cached => release (resolve i file cached (finish i s))
          | None => Some (send i file s)
          end
      | _, _ => None
      end
  | NetAnswer i f =>
      match reads s !! i, files !! i with
      | Some Fetching, Some file =>
          match request f with
          | Fulfilled data =>
              release (resolve i file data (remember file data (finish i s)))
          | Rejected err => reject err <$> release (finish i s)
          end
      | _, _ => None
      end
  end.

(** A run: the events one after the other. *)
Fixpoint run (s : state) (trace : list event) : option state :=
  match trace with
  | [] => Some s
  | e :: trace' =>
      match step s e with
      | Some s' => run s' trace'
      | None => None
      end
  end.

(** Lines 64-74, one file: [sem.take] starts the task or queues it. *)
Definition schedule_file (s : state) (i : nat) : state :=
  let '(sem', started) := take (sem s) i in
  let s' := {| sem := sem'; ticks := ticks s; reads := reads s;
               values := values s; result := result s; store := store s;
               calls := calls s |} in
  if started then start i s' else s'.

(** [fetchFiles(files)] up to its [return]: the state it leaves behind,
    given the content of the cache. *)
Definition fetchFiles (cached : gmap jsstring body) : state :=
  let s0 := {| sem := {| capacity := MAX_CONCURRENT_DOWNLOADS; current := 0;
                         queue := [] |};
               ticks := []; reads := ∅;
               values := replicate (length files) None;
               result := None; store := cached; calls := [] |} in
  let s1 := foldl schedule_file s0 (seq 0 (length files)) in
  {| sem := sem s1; ticks := ticks s1; reads := reads s1; values := values s1;
     result := gather (values s1); store := store s1; calls := calls s1 |}.

(** The reads that hold a permit: begun and not over, or about to begin. *)
Definition holds (s : state) (i : nat) : Prop :=
  i ∈ ticks s ∨ is_Some (reads s !! i).

Definition permits_held (s : state) : nat := length (ticks s) + size (reads s).

(** The error of the first read of a trace that failed. *)
Fixpoint first_failure (trace : list event) : option thrown :=
  match trace with
  | [] => None
  | NetAnswer _ f :: trace' =>
      match request f with
      | Rejected err => Some err
      | Fulfilled _ => first_failure trace'
      end
  | _ :: trace' => first_failure trace'
  end.

End FetchFiles.

(** * The rest of the client *)

(** ** [encodeURIComponent]

    The built-in function, as ECMA-262 defines it (18.2.6.1.1, Encode): a
    code unit of the unreserved set is kept; any other code point is
    written in UTF-8, each octet as [%XX] with upper-case digits; a
    surrogate without its partner raises a [URIError] ([None]). *)

Module URI.

Definition between (lo hi c : N) : bool := ((lo <=? c) && (c <=? hi))%N.

(** [uriUnreserved]: letters, digits and the marks [-_.!~*'()]. *)
Definition unreserved (c : N) : bool :=
  between 65 90 c || between 97 122 c || between 48 57 c ||
  existsb (N.eqb c) (lit "-_.!~*'()").

Definition hex_digit (n : N) : N :=
  nth (N.to_nat n) (lit "0123456789ABCDEF") 48%N.

(** One octet as [%XX]. *)
Definition percent (octet : N) : jsstring :=
  [37; hex_digit (octet / 16); hex_digit (octet mod 16)]%N.

(** The octets of a code point in UTF-8. *)
Definition utf8 (v : N) : list N :=
  (if v <? 128 then [v]
   else if v <? 2048 then [192 + v / 64; 128 + v mod 64]
   else if v <? 65536 then [224 + v / 4096; 128 + v / 64 mod 64; 128 + v mod 64]
   else [240 + v / 262144; 128 + v / 4096 mod 64; 128 + v / 64 mod 64;
         128 + v mod 64])%N.

Definition escape (v : N) : jsstring := concat (map percent (utf8 v)).

Definition high_surrogate (c : N) : bool := between 55296 56319 c.
Definition low_surrogate (c : N) : bool := between 56320 57343 c.

Fixpoint encodeURIComponent (s : jsstring) : option jsstring :=
  match s with
  | [] => Some []
  | c :: rest =>
      if unreserved c then (λ out, c :: out) <$> encodeURIComponent rest
      else if low_surrogate c then None
      else if high_surrogate c then
        match rest with
        | k :: rest' =>
            if low_surrogate k
            then (λ out, escape ((c - 55296) * 1024 + (k - 56320) + 65536)%N ++ out)
                   <$> encodeURIComponent rest'
            else None
        | [] => None
        end
      else (λ out, escape c ++ out) <$> encodeURIComponent rest
  end.

End URI.

Import URI.

(** [pieces.join(sep)]. *)
Fixpoint join (sep : jsstring) (pieces : list jsstring) : jsstring :=
  match pieces with
  | [] => []
  | [p] => p
  | p :: rest => p ++ sep ++ join sep rest
  end.

(** ** The constructor of the client (API.js, lines 7-13) *)

(** The [config] object that the constructor receives; [None] is a
    property that is not there. *)
Record API_config := {
  cfg_api_root : option jsstring;
  cfg_token : option jsstring;
  cfg_branch : option jsstring;
  cfg_repo : option jsstring;
}.

(** [v || d] for a string [v] that may be missing. *)
Definition or_else (v : option jsstring) (d : jsstring) : jsstring :=
  match v with
  | Some s => if truthy_string s then s else d
  | None => d
  end.

(** [new API(config)]; the [token] of the record is [None] for [false].
    [None]: [encodeURIComponent] raised its [URIError]. *)
Definition new_API (config : API_config) : option API :=
  let repo' := or_else (cfg_repo config) [] in
  escaped ← encodeURIComponent repo';
  Some {| api_root := or_else (cfg_api_root config) (lit "https://gitlab.com/api/v3");
          token := match cfg_token config with
                   | Some t => if truthy_string t then Some t else None
                   | None => None
                   end;
          branch := or_else (cfg_branch config) (lit "master");
          repo := repo';
          repoURL := lit "/projects/" ++ escaped ++ lit "/repository" |}.

(** ** [requestHeaders] and [urlFor] (API.js, lines 19-54) *)

(** [requestHeaders(headers = {})]: an object of headers is a finite map;
    in the object literal the properties of [headers] come after the
    default content type and replace it. *)
Definition requestHeaders (api : API) (headers : gmap string jsstring)
  : gmap string jsstring :=
  let baseHeader := headers ∪ {["Content-Type"%string := lit "application/json"]} in
  match token api with
  | Some t =>
      if truthy_string t
      then <["Authorization"%string := lit "Bearer " ++ t]> baseHeader
      else baseHeader
  | None => baseHeader
  end.

(** One element of [params]: [`${ key }=${ encodeURIComponent(value) }`]. *)
Definition url_param (kv : string * jsstring) : option jsstring :=
  (λ v, lit kv.1 ++ lit "=" ++ v) <$> encodeURIComponent kv.2.

(** [urlFor(path, options)]; [None]: a value could not be encoded. *)
Definition urlFor (api : API) (path : jsstring) (opts : options) : option jsstring :=
  ps ← mapM url_param (params opts);
  Some (api_root api ++
        match ps with
        | [] => path
        | _ :: _ => path ++ lit "?" ++ join (lit "&") ps
        end).

(** What [request] hands to [fetch] (lines 57-60): the URL and the options
    with the headers. None of the calls of the client passes headers of its
    own, so [options.headers || {}] is the empty object. [None]: [urlFor]
    raised an error, nothing is fetched. *)
Record fetch_args := {
  fetch_url : jsstring;
  fetch_headers : gmap string jsstring;
  fetch_options : options;
}.

Definition request_args (api : API) (c : call) : option fetch_args :=
  url ← urlFor api (call_path c) (call_options c);
  Some {| fetch_url := url; fetch_headers := requestHeaders api ∅;
          fetch_options := call_options c |}.

(** ** The other calls of the client (API.js, lines 15-17, 90-94, 134-157) *)

(** [user()]. *)
Definition user_call : call :=
  {| call_path := lit "/user";
     call_options := {| method := None; params := []; payload := None;
                        cache := None |} |}.

(** [listFiles(path)]. *)
Definition listFiles_call (api : API) (path : jsstring) : call :=
  {| call_path := repoURL api ++ lit "/tree";
     call_options := {| method := None;
                        params := [("path"%string, path);
                                   ("ref_name"%string, branch api)];
                        payload := None; cache := None |} |}.

(** [getBranch(branch = this.branch)]; [None]: the name could not be
    encoded. *)
Definition getBranch_call (api : API) (branch_arg : option jsstring) : option call :=
  name ← encodeURIComponent (default (branch api) branch_arg);
  Some {| call_path := repoURL api ++ lit "/branches/" ++ name;
          call_options := {| method := None; params := []; payload := None;
                             cache := None |} |}.

(** [deleteBranch(branchName)]. *)
Definition deleteBranch_call (api : API) (branchName : jsstring) : option call :=
  name ← encodeURIComponent branchName;
  Some {| call_path := repoURL api ++ lit "/branches/" ++ name;
          call_options := {| method := Some "DELETE"%string; params := [];
                             payload := None; cache := None |} |}.

(** ** The other methods of the backend (implementation.js, lines 30-59
    and 78-84) *)

(** [setUser(user)], for a user whose [token] is a string: the token is
    kept and the client is built. [None]: [new API] raised an error. *)
Definition setUser (this : GitLab) (user_token : jsstring) : option (GitLab * API) :=
  let this' := {| gl_config := gl_config this; gl_repo := gl_repo this;
                  gl_branch := gl_branch this; gl_token := user_token |} in
  api ← new_API {| cfg_api_root := None; cfg_token := Some (gl_token this');
                   cfg_branch := Some (gl_branch this');
                   cfg_repo := Some (gl_repo this') |};
  Some (this', api).

(** [getToken()]: what its promise is fulfilled with. *)
Definition getToken (this : GitLab) : jsstring := gl_token this.




(** * The vocabulary of the properties *)

(** ** Persisting *)

Section PersistVocabulary.

Variable upper_hi : N → N.
Variable Base64_encode : jsstring → jsstring.
Variable api : API.
Variable net : network.

(** The action entry of a file once its content is known. *)
Definition entry_for (f : file) (c : jsstring) (a : string) : fileObj :=
  {| file_path := safeFilepath upper_hi (path_of f); content := Some c;
     encoding := Some "base64"%string; action := Some a |}.

(** Whether the promise of [f] gets as far as its commit: neither the
    encoding nor the probe ends it. *)
Definition proceeds (f : file) : Prop :=
  match encode Base64_encode f with
  | Fulfilled _ =>
      match getFile api net (path_of f) with
      | Fulfilled _ => True
      | Rejected err => status_of err = Some 404
      end
  | Rejected err => status_of err = Some 404
  end.

End PersistVocabulary.

(** ** The states of a batch fetch *)

(** The waiting tasks: handed to [nextTick], or still in the queue. *)
Definition waiting (s : state) : list nat := ticks s ++ queue (sem s).

(** The events that can happen in a state. *)
Definition enabled (s : state) (e : event) : Prop :=
  match e with
  | Tick => ticks s ≠ []
  | CacheAnswer i => reads s !! i = Some Lookup
  | NetAnswer i _ => reads s !! i = Some Fetching
  end.

Section FetchVocabulary.

Variable api : API.
Variable files : list FileRef.

(** The invariant of the states of [fetchFiles]. [slack] is 1 inside a
    handler, between the end of a read and [sem.leave()], and 0 between two
    events. *)
Record Invariant (slack : Z) (s : state) : Prop := {
  inv_capacity : capacity (sem s) = MAX_CONCURRENT_DOWNLOADS;
  inv_current : current (sem s) = Z.of_nat (permits_held s) + slack;
  inv_bound : current (sem s) ≤ capacity (sem s);
  inv_nodup : NoDup (waiting s);
  inv_waiting : ∀ i, i ∈ waiting s → reads s !! i = None ∧ values s !! i = Some None;
  inv_reading : ∀ i, is_Some (reads s !! i) → values s !! i = Some None;
  inv_values : ∀ i v, values s !! i = Some (Some v) → files !! i = Some (ff_file v);
  inv_length : length (values s) = length files;
  inv_result : ∀ l, result s = Some (Fulfilled l) → mapM id (values s) = Some l;
}.

(** What one event does to a state that satisfies the invariant. *)
Inductive Outcome (s : state) : event → state → Prop :=
  | tick_starts i rest :
      ticks s = i :: rest →
      Outcome s Tick
        (start i {| sem := sem s; ticks := rest; reads := reads s;
                    values := values s; result := result s; store := store s;
                    calls := calls s |})
  | cache_misses i file :
      reads s !! i = Some Lookup → files !! i = Some file →
      readFile_hit (store s) (fr_sha file) = None →
      Outcome s (CacheAnswer i) (send api i file s)
  | read_fulfilled e i file data s' :
      is_Some (reads s !! i) → files !! i = Some file →
      (e = CacheAnswer i ∧ readFile_hit (store s) (fr_sha file) = Some data
       ∨ ∃ f, e = NetAnswer i f ∧ request f = Fulfilled data) →
      reads s' = delete i (reads s) → waiting s' = waiting s →
      (S (permits_held s' + length (queue (sem s')))
       = permits_held s + length (queue (sem s)))%nat →
      result s' = match result s with
                  | Some r => Some r
                  | None => gather (<[i := Some {| ff_file := file;
                                                  ff_data := data |}]> (values s))
                  end →
      Outcome s e s'
  | read_rejected i f err s' :
      reads s !! i = Some Fetching → request f = Rejected err →
      reads s' = delete i (reads s) → waiting s' = waiting s →
      (S (permits_held s' + length (queue (sem s')))
       = permits_held s + length (queue (sem s)))%nat →
      result s' = match result s with
                  | Some r => Some r
                  | None => Some (Rejected err)
                  end →
      Outcome s (NetAnswer i f) s'.

(** What the promise of [readFile] for file [i] is fulfilled with when the
    event [e] ends the read in the state [s]: the cached value on a hit
    (line 76), the result of the request (line 85). *)
Definition delivery (s : state) (e : event) : option (nat * body) :=
  match e with
  | Tick => None
  | CacheAnswer i =>
      match reads s !! i, files !! i with
      | Some Lookup, Some file =>
          (λ cached, (i, cached)) <$> readFile_hit (store s) (fr_sha file)
      | _, _ => None
      end
  | NetAnswer i f =>
      match reads s !! i with
      | Some Fetching =>
          match request f with
          | Fulfilled data => Some (i, data)
          | Rejected _ => None
          end
      | _ => None
      end
  end.

(** The reads that a run fulfils, with their data, in the order in which
    they end. *)
Fixpoint deliveries (s : state) (trace : list event) : list (nat * body) :=
  match trace with
  | [] => []
  | e :: trace' =>
      match step api files s e with
      | Some s' => option_list (delivery s e) ++ deliveries s' trace'
      | None => []
      end
  end.

(** The states of the loop of lines 64-74, after the first [k] files. *)
Record Scheduled (cached : gmap jsstring body) (k : nat) (s : state) : Prop := {
  sch_inv : Invariant 0 s;
  sch_ticks : ticks s = [];
  sch_queue : ∀ i, i ∈ queue (sem s) → (i < k)%nat;
  sch_reads : ∀ i, is_Some (reads s !! i) → (i < k)%nat;
  sch_values : values s = replicate (length files) None;
  sch_result : result s = None;
  sch_store : store s = cached;
  sch_calls : calls s = [];
}.

End FetchVocabulary.

(** ** Sample values *)

Definition json_type : option jsstring := Some (lit "application/json").

(** A string literal of a JSON text: the code units between two quotation
    marks (code unit 34). *)
Definition quoted (s : jsstring) : jsstring := [34%N] ++ s ++ [34%N].

(** A 404 of the remote API with a JSON body. *)
Definition not_found_json : json :=
  JObj [(lit "message", JStr (lit "404 File Not Found"))].

Definition not_found : response :=
  {| status := 404; contentType := json_type;
     text_body := lit "{" ++ quoted (lit "message") ++ lit ":"
                  ++ quoted (lit "404 File Not Found") ++ lit "}";
     json_body := Fulfilled not_found_json |}.

(** The same status and message, with one more property in the body. *)
Definition not_found_verbose : response :=
  {| status := 404; contentType := json_type;
     text_body := lit "{" ++ quoted (lit "message") ++ lit ":"
                  ++ quoted (lit "404 File Not Found") ++ lit ","
                  ++ quoted (lit "retry") ++ lit ":false}";
     json_body := Fulfilled (JObj [(lit "message", JStr (lit "404 File Not Found"));
                                   (lit "retry", JBool false)]) |}.

Definition editorial_config (r : option jsstring) : config :=
  {| backend_repo := r; backend_branch := None;
     publish_mode := Some EDITORIAL_WORKFLOW |}.

(** [Base64.encode] on ASCII text: three bytes give four digits. *)
Definition base64_digit (n : N) : N :=
  nth (N.to_nat n)
      (lit "ABCDEFGHIJKLMNOPQRSTUVWXYZabcdefghijklmnopqrstuvwxyz0123456789+/")
      61%N.

Fixpoint base64_ascii (s : jsstring) : jsstring :=
  match s with
  | [] => []
  | [a] =>
      [base64_digit (a / 4); base64_digit (a mod 4 * 16); 61; 61]%N
  | [a; b] =>
      [base64_digit (a / 4); base64_digit (a mod 4 * 16 + b / 16);
       base64_digit (b mod 16 * 4); 61]%N
  | a :: b :: c :: rest =>
      [base64_digit (a / 4); base64_digit (a mod 4 * 16 + b / 16);
       base64_digit (b mod 16 * 4 + c / 64); base64_digit (c mod 64)]%N
      ++ base64_ascii rest
  end.

Definition sample_api : API :=
  {| api_root := lit "https://gitlab.com/api/v3"; token := Some (lit "secret");
     branch := lit "master"; repo := lit "owner/site";
     repoURL := lit "/projects/owner%2Fsite/repository" |}.

Definition created : response :=
  {| status := 201; contentType := json_type;
     text_body := lit "{}"; json_body := Fulfilled (JObj []) |}.

Definition found : response :=
  {| status := 200; contentType := json_type;
     text_body := lit "{}"; json_body := Fulfilled (JObj []) |}.

Definition server_error : response :=
  {| status := 500; contentType := json_type;
     text_body := lit "{}"; json_body := Fulfilled (JObj []) |}.

(** The parameter [k] of a call. *)
Fixpoint param (k : string) (ps : list (string * jsstring)) : option jsstring :=
  match ps with
  | [] => None
  | (k', v) :: rest => if decide (k' = k) then Some v else param k rest
  end.

(** A remote that holds [img/logo.png] only, and is broken for
    [posts/broken.md]. *)
Definition sample_net : network := λ c,
  if is_commit c then Response created
  else match param "file_path" (params (call_options c)) with
       | Some p =>
           if decide (p = lit "img/logo.png") then Response found
           else if decide (p = lit "posts/broken.md") then Response server_error
           else Response not_found
       | None => NetworkError (lit "Failed to fetch")
       end.

Definition logo : file := AssetProxy (lit "img/logo.png") (Fulfilled (lit "iVBORw0KGgo=")).
Definition photo : file := AssetProxy (lit "img/photo.jpg") (Fulfilled (lit "/9j/4AAQSkZJRg==")).
Definition post : file := TextFile (lit "posts/hello.md") (lit "Hello").
Definition broken_post : file := TextFile (lit "posts/broken.md") (lit "Hello").


(** A response that carries text. *)
Definition text_response (t : jsstring) : fetched :=
  Response {| status := 200; contentType := Some (lit "text/plain");
              text_body := t; json_body := Rejected (lit "Unexpected token") |}.

Definition file_ref (p : jsstring) (h : option jsstring) : FileRef :=
  {| fr_path := p; fr_sha := h; fr_label := None |}.

(** Twelve files [posts/a.md] ... [posts/l.md], listed without hashes. *)
Definition batch : list FileRef :=
  map (λ n, file_ref (lit "posts/" ++ [N.of_nat (97 + n)] ++ lit ".md") None)
      (seq 0 12).

(** The first read ends well, the queue moves on, the fourth read meets a
    transport failure. *)
Definition batch_trace : list event :=
  [CacheAnswer 0%nat; NetAnswer 0%nat (text_response (lit "A")); Tick;
   CacheAnswer 10%nat; CacheAnswer 3%nat;
   NetAnswer 3%nat (NetworkError (lit "Failed to fetch"))].

(** Two files, the first with a hash whose content is in the cache. *)
Definition a_md : FileRef := file_ref (lit "a.md") (Some (lit "h1")).
Definition b_md : FileRef := file_ref (lit "b.md") None.

Definition cache_h1 : gmap jsstring body := {[cache_key (lit "h1") := BodyText (lit "X")]}.

(** The read of the second file ends before that of the first. *)
Definition reversed_trace : list event :=
  [CacheAnswer 1%nat; NetAnswer 1%nat (text_response (lit "B")); CacheAnswer 0%nat].


(** The state in which a trace leaves a batch. *)
Definition state_after (files : list FileRef) (cached : gmap jsstring body)
    (trace : list event) : state :=
  default (fetchFiles files cached)
          (run sample_api files (fetchFiles files cached) trace).

(** ** Addresses *)

(** The code units that [encodeURIComponent] can write: the unreserved
    ones and the percent sign. *)
Definition url_safe (c : N) : bool := unreserved c || (c =? 37)%N.

Definition surrogate (c : N) : bool := high_surrogate c || low_surrogate c.

(** [s.split(sep)] for a separator of one code unit. *)
Fixpoint split_on (sep : N) (s : jsstring) : list jsstring :=
  match s with
  | [] => [[]]
  | c :: rest =>
      if (c =? sep)%N then [] :: split_on sep rest
      else match split_on sep rest with
           | p :: ps => (c :: p) :: ps
           | [] => [[c]]
           end
  end.

(** ** More sample values *)

(** A configuration with an empty branch. *)
Definition site_config : config :=
  {| backend_repo := Some (lit "owner/site"); backend_branch := Some [];
     publish_mode := None |}.




(** ** The events of a trace *)


(** ** Counting the work of a batch *)

Definition looking (ph : phase) : bool :=
  match ph with Lookup => true | Fetching => false end.

(** The reads that still wait for the cache. *)
Definition lookups (s : state) : nat :=
  size (filter (λ kv : nat * phase, looking kv.2 = true) (reads s)).

(** The events that a batch can still take: three for a task that waits
    (the tick, the cache, the network), two for a read that waits for the
    cache, one for a read that waits for the network. *)
Definition events_left (s : state) : nat :=
  3 * length (waiting s) + size (reads s) + lookups s.

Section FetchAccounting.

Variable files : list FileRef.

Record Accounting (s : state) : Prop := {
  acc_calls : (length (calls s) + length (waiting s) + lookups s ≤ length files)%nat;
  acc_full : queue (sem s) ≠ [] → current (sem s) = capacity (sem s);
  acc_unsettled : result s = None → mapM id (values s) = None;
  acc_pending : result s = None → ∀ i, values s !! i = Some None →
                i ∈ waiting s ∨ is_Some (reads s !! i);
}.

End FetchAccounting.

(** * Properties *)

(** ** Path sanitisation *)

Section Sanitize.

Variable upper_hi : N → N.

Lemma canonicalize_high ch : (128 <= ch)%N → (128 <= canonicalize upper_hi ch)%N.
Proof.
  intros Hch. unfold canonicalize.
  destruct (N.leb_spec 128 ch); [|lia]. simpl.
  destruct (N.ltb_spec (toUpperCase upper_hi ch) 128); lia.
Qed.

Lemma class_members_ascii :
  Forall (λ a, (canonicalize upper_hi a < 128)%N) class_members.
Proof. repeat constructor. Qed.

(** No code unit from 128 on is in the class, whatever its upper case. *)
Lemma class_matches_high ch : (128 <= ch)%N → class_matches upper_hi ch = false.
Proof.
  intros Hch. unfold class_matches.
  apply not_true_iff_false. rewrite existsb_exists.
  intros (a & Ha & Heq). apply N.eqb_eq in Heq.
  pose proof (canonicalize_high ch Hch).
  pose proof class_members_ascii as Hall.
  rewrite Forall_forall in Hall. apply list_elem_of_In in Ha.
  specialize (Hall a Ha). simpl in Hall. lia.
Qed.

(** On the 128 ASCII code units the class is decided by evaluation. *)
Lemma class_matches_low :
  forallb (λ n, Bool.eqb (class_matches upper_hi (N.of_nat n))
                         (spec_allowed (N.of_nat n)))
          (seq 0 128) = true.
Proof. vm_compute. reflexivity. Qed.

Lemma class_matches_spec ch : class_matches upper_hi ch = spec_allowed ch.
Proof.
  destruct (N.lt_ge_cases ch 128) as [Hlo|Hhi].
  - pose proof class_matches_low as H. rewrite forallb_forall in H.
    specialize (H (N.to_nat ch)). rewrite N2Nat.id in H.
    apply Bool.eqb_prop, H, in_seq. lia.
  - rewrite class_matches_high by done. symmetry.
    unfold spec_allowed.
    repeat match goal with
    | |- context [(?a <=? ?b)%N] => destruct (N.leb_spec a b)
    | |- context [(?a =? ?b)%N] => destruct (N.eqb_spec a b)
    end; simpl; try reflexivity; lia.
Qed.

Lemma safeFilepath_example :
  safeFilepath upper_hi (lit "dir/My File!.md") = lit "dir/MyFile.md".
Proof. vm_compute. reflexivity. Qed.

(** C5. For every path, [safeFilepath] keeps exactly the code units of the
    set [A-Za-z0-9_\-@./], in place and in order, and drops all others;
    ["dir/My File!.md"] becomes ["dir/MyFile.md"]. *)
Theorem safeFilepath_removes_exactly_disallowed :
  (∀ filepath : jsstring,
     safeFilepath upper_hi filepath
     = filter (λ ch, spec_allowed ch = true) filepath) ∧
  safeFilepath upper_hi (lit "dir/My File!.md") = lit "dir/MyFile.md".
Proof.
  split.
  - intros filepath. unfold safeFilepath. apply list_filter_iff.
    intros ch. by rewrite class_matches_spec.
  - apply safeFilepath_example.
Qed.

End Sanitize.

(** ** The request primitive *)

(** [parseJsonResponse] alone does reject with the parsed JSON. *)
Lemma parseJsonResponse_rejects_json r j :
  json_body r = Fulfilled j → ok r = false →
  parseJsonResponse r = Rejected (JsonValue j).
Proof. intros Hj Hok. unfold parseJsonResponse. by rewrite Hj, Hok. Qed.

(** C6, as stated, fails: for a JSON response with status 404 the failure
    of [request] is an [APIError] made of the [message] property of the
    body, the status and the tag; it is not the parsed JSON, two different
    bodies give the same failure. *)
Lemma request_failure_is_not_the_parsed_json :
  is_json (contentType not_found) = true ∧
  ok not_found = false ∧
  json_body not_found ≠ json_body not_found_verbose ∧
  request (Response not_found)
  = Rejected (APIError (Some (JStr (lit "404 File Not Found"))) (Some 404) "GitLab") ∧
  request (Response not_found_verbose) = request (Response not_found) ∧
  ¬ ∃ payload : thrown → json,
      ∀ r j, is_json (contentType r) = true → json_body r = Fulfilled j →
             ok r = false →
             ∃ e, request (Response r) = Rejected e ∧ payload e = j.
Proof.
  split_and!; try reflexivity; [discriminate|].
  intros (payload & Hclaim).
  destruct (Hclaim not_found _ eq_refl eq_refl eq_refl) as (e1 & He1 & Hp1).
  destruct (Hclaim not_found_verbose _ eq_refl eq_refl eq_refl) as (e2 & He2 & Hp2).
  assert (e1 = e2) as -> by (vm_compute in He1, He2; congruence).
  rewrite Hp1 in Hp2. vm_compute in Hp2. discriminate.
Qed.

(** C6, amended. A response whose content type contains [json] and whose
    body parses to [j]: [request] returns [j] when the status is in the
    success range; otherwise, [j] not being [null], it fails with the
    [APIError] that carries the [message] property of [j], the status of
    the response and the tag ["GitLab"]. A response of any other content
    type: [request] returns the raw text, whatever the status. *)
Theorem request_by_content_type (r : response) :
  (is_json (contentType r) = true →
   ∀ j, json_body r = Fulfilled j →
     (ok r = true → request (Response r) = Fulfilled (BodyJson j)) ∧
     (ok r = false → j ≠ JNull →
      request (Response r)
      = Rejected (APIError (json_message j) (Some (status r)) "GitLab"))) ∧
  (is_json (contentType r) = false →
   request (Response r) = Fulfilled (BodyText (text_body r))).
Proof.
  split.
  - intros Hct j Hj. unfold request, parseJsonResponse. rewrite Hct, Hj.
    split; intros Hok; rewrite Hok; [done|].
    intros Hnull. simpl. unfold request_catch.
    by destruct j.
  - intros Hct. unfold request. by rewrite Hct.
Qed.

Lemma request_by_content_type_witness :
  request (Response not_found)
  = Rejected (APIError (json_message not_found_json) (Some 404) "GitLab").
Proof.
  apply (proj1 (request_by_content_type not_found) eq_refl not_found_json eq_refl).
  - reflexivity.
  - discriminate.
Defined.

(** ** Construction *)

(** C9. Without a repository identifier the constructor throws an error,
    unless the client is marked proxied; with the editorial workflow
    selected it throws in every case: the error of the missing identifier
    or the [EditorialWorkflowError]. The constructor is a function of the
    configuration and the flag alone: no request is made. *)
Theorem constructor_validates (cfg : config) (proxied : bool) :
  (backend_repo cfg = None → proxied = false →
   ∃ m, constructor cfg proxied = inl (Error m)) ∧
  (backend_repo cfg = None → proxied = true →
   publish_mode cfg ≠ Some EDITORIAL_WORKFLOW →
   ∃ this, constructor cfg proxied = inr this) ∧
  (publish_mode cfg = Some EDITORIAL_WORKFLOW →
   ∃ e, constructor cfg proxied = inl e ∧
        (e = EditorialWorkflowError
               "The GitLab backend does not support the Editorial Workflow." false
         ∨ (proxied = false ∧ backend_repo cfg = None ∧ ∃ m, e = Error m))).
Proof.
  unfold constructor. repeat split.
  - intros -> ->. simpl. eauto.
  - intros -> -> Hmode. simpl. rewrite bool_decide_eq_false_2 by done. eauto.
  - intros Hmode. destruct proxied; simpl.
    + rewrite bool_decide_eq_true_2 by done. eauto.
    + case_bool_decide as Hrepo.
      * eexists. split; [done|]. right. eauto.
      * rewrite bool_decide_eq_true_2 by done. eauto.
Qed.

Lemma constructor_validates_witness :
  (∃ m, constructor (editorial_config None) false = inl (Error m)) ∧
  (∃ e, constructor (editorial_config (Some (lit "owner/site"))) false = inl e).
Proof.
  split.
  - apply (proj1 (constructor_validates (editorial_config None) false));
      reflexivity.
  - destruct (proj2 (proj2 (constructor_validates
                (editorial_config (Some (lit "owner/site"))) false)) eq_refl)
      as (e & He & _).
    exists e. exact He.
Defined.

(** ** Persisting files *)

Section PersistProperties.

Variable upper_hi : N → N.
Variable Base64_encode : jsstring → jsstring.
Variable api : API.
Variable net : network.

Local Abbreviation persist_one := (persistFile upper_hi Base64_encode api net).
Local Abbreviation persist_all := (persistFiles upper_hi Base64_encode api net).

Lemma persistFiles_runs entry mediaFiles message r :
  r ∈ persist_all entry mediaFiles message →
  run_file r ∈ mediaFiles ++ [entry] ∧ r = persist_one message (run_file r).
Proof.
  unfold persistFiles. intros (f & -> & Hf)%list_elem_of_fmap.
  assert (run_file (persist_one message f) = f) as ->; [|done].
  unfold persistFile, persist_rejected, persist_commit.
  repeat (case_match || case_decide); reflexivity.
Qed.

(** C1. For every file of [persistFiles] whose probe is made: when the
    probe succeeds the commit carries the action ["update"]; when it fails
    with status 404 the commit carries the action ["create"]; when it fails
    with any other error the promise of the file is rejected with that
    error and it issues no commit. *)
Theorem persist_action_follows_probe entry mediaFiles message r c :
  r ∈ persist_all entry mediaFiles message →
  encode Base64_encode (run_file r) = Fulfilled c →
  let f := run_file r in
  let probe := getFile api net (path_of f) in
  (∀ b, probe = Fulfilled b →
     commits_of r = [commit_call api message [entry_for upper_hi f c "update"]]) ∧
  (∀ err, probe = Rejected err → status_of err = Some 404 →
     commits_of r = [commit_call api message [entry_for upper_hi f c "create"]]) ∧
  (∀ err, probe = Rejected err → status_of err ≠ Some 404 →
     run_result r = Rejected err ∧ commits_of r = []).
Proof.
  intros [_ Hr]%persistFiles_runs Henc.
  remember (run_file r) as f eqn:Hf. intros f' probe. subst f' probe.
  rewrite Hr. clear Hr Hf r.
  unfold persistFile. rewrite Henc.
  split; [|split].
  - intros b ->. reflexivity.
  - intros err -> Hst. unfold persist_rejected. rewrite decide_True by done.
    reflexivity.
  - intros err -> Hst. unfold persist_rejected. by rewrite decide_False.
Qed.

(** The commits of one file: a single one with a single action on the
    sanitised path, or none when the promise ended before. *)
Lemma persistFile_commits message f :
  (proceeds Base64_encode api net f ∧
   ∃ o, commits_of (persist_one message f) = [commit_call api message [o]] ∧
        file_path o = safeFilepath upper_hi (path_of f)) ∨
  (¬ proceeds Base64_encode api net f ∧ commits_of (persist_one message f) = []).
Proof.
  unfold proceeds, persistFile, persist_rejected.
  destruct (encode Base64_encode f) as [c|err].
  - destruct (getFile api net (path_of f)) as [b|err].
    + left. split; [done|]. eexists. split; reflexivity.
    + case_decide.
      * left. split; [done|]. eexists. split; reflexivity.
      * right. done.
  - case_decide.
    + left. split; [done|]. eexists. split; reflexivity.
    + right. done.
Qed.

(** A file whose promise is rejected makes the promise of [persistFiles]
    fail, whatever the other files do. *)
Lemma persistFiles_result_rejected order entry mediaFiles message i r e :
  persist_all entry mediaFiles message !! i = Some r →
  run_result r = Rejected e → i ∈ order →
  ∃ e', persistFiles_result upper_hi Base64_encode api net order entry
          mediaFiles message = Rejected e'.
Proof.
  intros Hi He Hin. unfold persistFiles_result, Promise_all.
  set (ps := map run_result _).
  assert (ps !! i ≫= rejection = Some e) as Hrej.
  { subst ps. by rewrite list_lookup_fmap, Hi; simpl; rewrite He. }
  destruct (omap _ order) as [|e' rest] eqn:Ho; [|eauto].
  assert (e ∈ omap (λ i, ps !! i ≫= rejection) order) as Hmem
    by (apply list_elem_of_omap; eauto).
  rewrite Ho in Hmem. by apply elem_of_nil in Hmem.
Qed.

(** C7, amended. [persistFiles] builds the promises of the auxiliary files
    followed by that of the primary file; every commit request that a file
    issues carries exactly one action, for the sanitised path of that file;
    a file issues exactly one commit request when its sequence reaches the
    commit and none when its encoding or its probe ends the sequence
    before; so [N] files whose sequences all reach the commit give [N]
    commit requests. *)
Theorem persist_one_commit_per_file entry mediaFiles message :
  let runs := persist_all entry mediaFiles message in
  map run_file runs = mediaFiles ++ [entry] ∧
  (∀ r c, r ∈ runs → c ∈ commits_of r →
     ∃ o, c = commit_call api message [o] ∧
          file_path o = safeFilepath upper_hi (path_of (run_file r))) ∧
  (∀ r, r ∈ runs →
     (proceeds Base64_encode api net (run_file r) →
      length (commits_of r) = 1%nat) ∧
     (¬ proceeds Base64_encode api net (run_file r) → commits_of r = [])) ∧
  ((∀ f, f ∈ mediaFiles ++ [entry] → proceeds Base64_encode api net f) →
   Forall (λ r, length (commits_of r) = 1%nat) runs ∧
   length (concat (map commits_of runs)) = (length mediaFiles + 1)%nat).
Proof.
  intros runs. split; [|split; [|split]].
  - subst runs. unfold persistFiles. rewrite <- list_fmap_compose.
    rewrite <- (list_fmap_id (mediaFiles ++ [entry])) at 2.
    apply list_fmap_ext. intros i f Hf. simpl.
    unfold persistFile, persist_rejected, persist_commit.
    repeat (case_match || case_decide); reflexivity.
  - intros r c Hr Hc. apply persistFiles_runs in Hr as [_ Hr].
    rewrite Hr in Hc.
    destruct (persistFile_commits message (run_file r)) as [(_ & o & Ho & Hp)|[_ Hn]].
    + rewrite Ho in Hc. apply list_elem_of_singleton in Hc. eauto.
    + rewrite Hn in Hc. by apply elem_of_nil in Hc.
  - intros r Hr. apply persistFiles_runs in Hr as [_ Hr].
    remember (run_file r) as f eqn:Hf. rewrite Hr. clear Hr Hf r.
    destruct (persistFile_commits message f) as [(Hp & o & -> & _)|[Hn ->]];
      by split.
  - intros Hall. subst runs. unfold persistFiles.
    replace (length mediaFiles + 1)%nat with (length (mediaFiles ++ [entry]))
      by (rewrite length_app; simpl; lia).
    induction (mediaFiles ++ [entry]) as [|f files IH]; [by split|].
    destruct IH as [IH1 IH2].
    { intros g Hg. apply Hall. by right. }
    assert (length (commits_of (persist_one message f)) = 1%nat) as Hone.
    { destruct (persistFile_commits message f) as [(_ & o & -> & _)|[Hn _]]; [done|].
      destruct Hn. apply Hall. by left. }
    split; [by constructor|].
    simpl. rewrite length_app, Hone, IH2. done.
Qed.

(** C2: the probe goes to the path as given, the commit to the sanitised
    path. For a file at ["dir/My File!.md"] the first call is the probe of
    ["dir/My File!.md"], whereas every commit that follows names
    ["dir/MyFile.md"]: the probe does not look where the commit writes. *)
Theorem persist_probes_unsanitised_path message raw :
  let r := persist_one message (TextFile (lit "dir/My File!.md") raw) in
  ∃ rest,
    run_calls r = getFile_call api (lit "dir/My File!.md") :: rest ∧
    getFile_call api (lit "dir/My File!.md")
      ≠ getFile_call api (lit "dir/MyFile.md") ∧
    Forall (λ c, ∃ o, payload (call_options c)
                      = Some {| branchName := branch api; commitMessage := message;
                                actions := [o] |} ∧
                      file_path o = lit "dir/MyFile.md") rest.
Proof.
  intros r. subst r. unfold persistFile, persist_rejected, persist_commit.
  cbn [encode path_of].
  rewrite safeFilepath_example.
  assert (getFile_call api (lit "dir/My File!.md")
          ≠ getFile_call api (lit "dir/MyFile.md")) as Hne.
  { intros Heq. apply (f_equal (λ c, params (call_options c))) in Heq.
    simpl in Heq. discriminate. }
  destruct (getFile api net (lit "dir/My File!.md")) as [b|err].
  - eexists. split; [reflexivity|]. split; [done|].
    repeat constructor. eexists. split; reflexivity.
  - case_decide.
    + eexists. split; [reflexivity|]. split; [done|].
      repeat constructor. eexists. split; reflexivity.
    + eexists. split; [reflexivity|]. split; [done|]. constructor.
Qed.

End PersistProperties.

Example base64_ascii_Hello : base64_ascii (lit "Hello") = lit "SGVsbG8=".
Proof. reflexivity. Qed.

Lemma persist_action_follows_probe_witness :
  let r := persistFile (λ ch, ch) base64_ascii sample_api sample_net
             (lit "publish") logo in
  commits_of r
  = [commit_call sample_api (lit "publish")
       [{| file_path := lit "img/logo.png"; content := Some (lit "iVBORw0KGgo=");
           encoding := Some "base64"%string; action := Some "update"%string |}]].
Proof.
  intros r.
  apply (proj1 (persist_action_follows_probe (λ ch, ch) base64_ascii sample_api
                  sample_net post [logo; photo] (lit "publish") r
                  (lit "iVBORw0KGgo=") ltac:(left) eq_refl)
               (BodyJson (JObj []))).
  reflexivity.
Defined.

Lemma persist_one_commit_per_file_witness :
  length (concat (map commits_of
    (persistFiles (λ ch, ch) base64_ascii sample_api sample_net post
       [logo; photo] (lit "publish")))) = 3%nat.
Proof.
  apply (proj2 (proj2 (proj2 (persist_one_commit_per_file (λ ch, ch) base64_ascii
                         sample_api sample_net post [logo; photo] (lit "publish"))))).
  intros f Hf. simpl in Hf.
  repeat (apply elem_of_cons in Hf as [->|Hf]; [vm_compute; done|]).
  by apply elem_of_nil in Hf.
Defined.

(** C7, as stated, fails: two files are persisted, the logo and a post
    whose probe is answered with status 500; the promise of the post is
    rejected before its commit, so the two files give one commit request,
    not two. *)
Lemma persist_two_files_one_commit :
  let runs := persistFiles (λ ch, ch) base64_ascii sample_api sample_net
                broken_post [logo] (lit "publish") in
  map run_file runs = [logo; broken_post] ∧
  length (concat (map commits_of runs)) = 1%nat ∧
  map (λ r, length (commits_of r)) runs = [1; 0]%nat ∧
  map run_result runs
  = [Fulfilled (BodyJson (JObj []));
     Rejected (APIError None (Some 500) "GitLab")].
Proof. vm_compute. done. Qed.

(** A probe that fails with status 500 ends the promise of the file: no
    commit is issued for it. *)
Example persist_broken_post :
  let r := persistFile (λ ch, ch) base64_ascii sample_api sample_net
             (lit "publish") broken_post in
  run_result r = Rejected (APIError None (Some 500) "GitLab") ∧ commits_of r = [].
Proof. split; reflexivity. Qed.

(** ** Reading through the cache *)

Section ReadProperties.

Variable api : API.
Variable net : network.


(** No hit: one request goes to the blob endpoint of the branch, for the
    path. *)
Lemma readFile_miss_requests store path sha branch_arg :
  readFile_hit store sha = None →
  read_calls (readFile api net store path sha branch_arg)
  = [readFile_call api path (default (branch api) branch_arg)].
Proof.
  intros Hmiss. unfold readFile. rewrite Hmiss.
  by destruct (request _).
Qed.

(** The fetched result is stored under the hash exactly when a hash was
    given. *)
Lemma readFile_stores_iff_hash store path sha branch_arg result :
  readFile_hit store sha = None →
  read_result (readFile api net store path sha branch_arg) = Fulfilled result →
  read_store (readFile api net store path sha branch_arg)
  = match sha with
    | Some h => if truthy_string h then <[cache_key h := result]> store else store
    | None => store
    end.
Proof.
  intros Hmiss. unfold readFile. rewrite Hmiss.
  destruct (request _) as [b|e]; simpl; [|done].
  by intros [= ->].
Qed.

(** C4: the hash of the empty blob. Its cached content is the empty string;
    [readFile] finds the entry, takes the empty string for a miss and asks
    the network again, although the cache holds the content. *)
Theorem readFile_refetches_cached_empty_content path branch_arg :
  let h := lit "e69de29bb2d1d6434b8b29ae775ad8c2e48c5391" in
  let store : gmap jsstring body := {[cache_key h := BodyText []]} in
  store !! cache_key h = Some (BodyText []) ∧
  read_calls (readFile api net store path (Some h) branch_arg)
  = [readFile_call api path (default (branch api) branch_arg)].
Proof.
  intros h store. split; [apply lookup_singleton_eq|].
  apply readFile_miss_requests.
  unfold readFile_hit, readFile_cached. simpl.
  subst store. by rewrite lookup_singleton_eq.
Qed.

End ReadProperties.

(** ** The batch fetch *)

Section FetchInvariant.

Variable api : API.
Variable files : list FileRef.

Local Abbreviation Inv := (Invariant files).
Local Abbreviation outcome := (Outcome api files).

Lemma mapM_id_slot (vs : list (option FetchedFile)) l i :
  mapM id vs = Some l → vs !! i = Some None → False.
Proof.
  intros Hm Hi. apply mapM_Some_1 in Hm.
  destruct (Forall2_lookup_l _ _ _ _ _ Hm Hi) as (y & _ & Hy). discriminate.
Qed.

Lemma start_inv i rest s :
  Inv 0 s → ticks s = i :: rest →
  Inv 0 (start i {| sem := sem s; ticks := rest; reads := reads s;
                    values := values s; result := result s; store := store s;
                    calls := calls s |}).
Proof.
  intros [Hcap Hcur Hle Hnd Hw Hr Hv Hlen Hres] Ht.
  unfold waiting, permits_held in *. rewrite Ht in *. simpl in *.
  destruct (Hw i) as [Hri Hvi]; [by left|].
  apply NoDup_cons in Hnd as [Hni Hnd].
  split; simpl; unfold waiting, permits_held; simpl; try done.
  - rewrite map_size_insert_None by done. lia.
  - intros j Hj.
    destruct (Hw j) as [Hrj Hvj]; [by right|].
    split; [|done]. rewrite lookup_insert_ne; [done|]. by intros ->.
  - intros j. rewrite lookup_insert. case_decide as Hij.
    + by subst.
    + apply Hr.
Qed.

Lemma send_inv i file s :
  Inv 0 s → reads s !! i = Some Lookup → Inv 0 (send api i file s).
Proof.
  intros [Hcap Hcur Hle Hnd Hw Hr Hv Hlen Hres] Hi.
  split; simpl; unfold waiting, permits_held in *; simpl; try done.
  - rewrite map_size_insert_Some by done. done.
  - intros j Hj. destruct (Hw j Hj) as [Hrj Hvj].
    split; [|done]. rewrite lookup_insert_ne; [done|]. intros ->. congruence.
  - intros j. rewrite lookup_insert. case_decide as Hij.
    + subst. intros _. apply Hr. by rewrite Hi.
    + apply Hr.
Qed.

Lemma finish_inv i s :
  Inv 0 s → is_Some (reads s !! i) →
  Inv 1 (finish i s) ∧ reads (finish i s) !! i = None ∧
  (i ∉ waiting (finish i s)) ∧ values (finish i s) !! i = Some None.
Proof.
  intros [Hcap Hcur Hle Hnd Hw Hr Hv Hlen Hres] Hi.
  split_and!.
  - split; simpl; unfold waiting, permits_held in *; simpl; try done.
    + destruct Hi as [ph Hi].
      pose proof (map_size_delete_Some i (reads s) ltac:(eauto)) as Hsz.
      assert (size (reads s) ≠ 0%nat).
      { intros Hz. apply map_size_empty_inv in Hz. rewrite Hz in Hi.
        by rewrite lookup_empty in Hi. }
      lia.
    + intros j Hj. destruct (Hw j Hj) as [Hrj Hvj].
      split; [|done]. rewrite lookup_delete_ne; [done|]. intros ->.
      destruct Hi. congruence.
    + intros j. rewrite lookup_delete. case_decide.
      * by intros [? ?].
      * apply Hr.
  - simpl. apply lookup_delete_eq.
  - intros Hin. destruct (Hw i Hin) as [Hri _]. destruct Hi. congruence.
  - simpl. by apply Hr.
Qed.

Lemma remember_inv k file data s : Inv k s → Inv k (remember file data s).
Proof.
  intros [Hcap Hcur Hle Hnd Hw Hr Hv Hlen Hres].
  by split; simpl; unfold waiting, permits_held in *; simpl.
Qed.

Lemma reject_inv k err s : Inv k s → Inv k (reject err s).
Proof.
  intros [Hcap Hcur Hle Hnd Hw Hr Hv Hlen Hres].
  split; simpl; unfold waiting, permits_held in *; simpl; try done.
  intros l. destruct (result s) as [r|] eqn:Hrs; [|discriminate].
  intros [= ->]. by apply Hres.
Qed.

Lemma resolve_inv k i file data s :
  Inv k s → files !! i = Some file → reads s !! i = None →
  i ∉ waiting s → values s !! i = Some None →
  Inv k (resolve i file data s).
Proof.
  intros [Hcap Hcur Hle Hnd Hw Hr Hv Hlen Hres] Hf Hri Hwi Hvi.
  assert (i < length (values s))%nat as Hlt by (by eapply lookup_lt_Some).
  split; simpl; unfold waiting, permits_held in *; simpl; try done.
  - intros j Hj. destruct (Hw j Hj) as [Hrj Hvj]. split; [done|].
    rewrite list_lookup_insert_ne; [done|]. by intros ->.
  - intros j Hj. rewrite list_lookup_insert_ne; [by apply Hr|].
    intros ->. destruct Hj. congruence.
  - intros j v. destruct (decide (i = j)) as [->|Hij].
    + rewrite list_lookup_insert_eq by done. by intros [= <-].
    + rewrite list_lookup_insert_ne by done. apply Hv.
  - by rewrite length_insert.
  - intros l. destruct (result s) as [r|] eqn:Hres'.
    + intros [= ->]. destruct (mapM_id_slot _ _ _ (Hres l eq_refl) Hvi).
    + unfold gather. intros (l' & Hl' & [= ->])%fmap_Some. done.
Qed.

Lemma release_inv s :
  Inv 1 s →
  ∃ s', release s = Some s' ∧ Inv 0 s' ∧
        reads s' = reads s ∧ values s' = values s ∧ result s' = result s ∧
        store s' = store s ∧ calls s' = calls s ∧ waiting s' = waiting s ∧
        (permits_held s' + length (queue (sem s'))
         = permits_held s + length (queue (sem s)))%nat.
Proof.
  intros [Hcap Hcur Hle Hnd Hw Hr Hv Hlen Hres].
  unfold release, leave.
  destruct (queue (sem s)) as [|j rest] eqn:Hq.
  - destruct (Z.ltb_spec (current (sem s) - 1) 0);
      [unfold permits_held in *; lia|].
    eexists. split; [done|].
    assert (∀ t, ticks s ++ [] ++ t = ticks s ++ t) as Happ by done.
    split_and!; simpl; try done.
    + split; simpl; unfold waiting, permits_held in *; simpl in *;
        rewrite ?Hq, ?app_nil_r in *; try done; lia.
    + unfold waiting. simpl. by rewrite Hq, !app_nil_r.
    + unfold permits_held. simpl. by rewrite app_nil_r.
  - destruct (Z.ltb_spec (capacity (sem s)) (current (sem s) - 1 + 1)); [lia|].
    eexists. split; [done|].
    assert (waiting {| sem := {| capacity := capacity (sem s);
                                 current := current (sem s) - 1 + 1;
                                 queue := rest |};
                       ticks := ticks s ++ [j];
                       reads := reads s; values := values s; result := result s;
                       store := store s; calls := calls s |} = waiting s) as Hwait.
    { unfold waiting. simpl. by rewrite Hq, <- app_assoc. }
    split_and!; simpl; try done.
    + split; simpl; rewrite ?Hwait; try done.
      all: unfold permits_held in *; simpl; rewrite ?length_app; simpl; lia.
    + unfold permits_held. simpl. rewrite length_app. simpl. lia.
Qed.

Lemma reading_file s i :
  Inv 0 s → is_Some (reads s !! i) → is_Some (files !! i).
Proof.
  intros [Hcap Hcur Hle Hnd Hw Hr Hv Hlen Hres] Hi.
  apply lookup_lt_is_Some. rewrite <- Hlen.
  eapply lookup_lt_Some. by apply Hr.
Qed.

(** A read that is over has given up its place among the reads. *)
Lemma finish_permits i s :
  is_Some (reads s !! i) → S (permits_held (finish i s)) = permits_held s.
Proof.
  intros [ph Hi]. unfold permits_held. simpl.
  pose proof (map_size_delete_Some i (reads s) ltac:(eauto)) as Hsz.
  assert (size (reads s) ≠ 0%nat).
  { intros Hz. apply map_size_empty_inv in Hz. rewrite Hz in Hi.
    by rewrite lookup_empty in Hi. }
  lia.
Qed.

(** The success handler of line 66: [resolve], then [sem.leave()]. *)
Lemma settle_fulfilled i file data t :
  Inv 1 t → files !! i = Some file → reads t !! i = None →
  i ∉ waiting t → values t !! i = Some None →
  ∃ s', release (resolve i file data t) = Some s' ∧ Inv 0 s' ∧
        reads s' = reads t ∧ waiting s' = waiting t ∧ store s' = store t ∧
        (permits_held s' + length (queue (sem s'))
         = permits_held t + length (queue (sem t)))%nat ∧
        result s' = match result t with
                    | Some r => Some r
                    | None => gather (<[i := Some {| ff_file := file;
                                                    ff_data := data |}]> (values t))
                    end.
Proof.
  intros Hinv Hf Hri Hwi Hvi.
  pose proof (resolve_inv 1 i file data _ Hinv Hf Hri Hwi Hvi) as Hinv2.
  destruct (release_inv _ Hinv2)
    as (s' & Hs' & Hinv' & Hr' & Hv' & Hres' & Hst' & Hc' & Hw' & Hp').
  exists s'. by split_and!.
Qed.

(** The failure handler of lines 69-72: [sem.leave()], then [reject]. *)
Lemma settle_rejected err t :
  Inv 1 t →
  ∃ s', reject err <$> release t = Some s' ∧ Inv 0 s' ∧
        reads s' = reads t ∧ waiting s' = waiting t ∧ store s' = store t ∧
        (permits_held s' + length (queue (sem s'))
         = permits_held t + length (queue (sem t)))%nat ∧
        result s' = match result t with
                    | Some r => Some r
                    | None => Some (Rejected err)
                    end.
Proof.
  intros Hinv.
  destruct (release_inv _ Hinv)
    as (s' & Hs' & Hinv' & Hr' & Hv' & Hres' & Hst' & Hc' & Hw' & Hp').
  exists (reject err s'). rewrite Hs'. split_and!; try done.
  - by apply reject_inv.
  - simpl. by rewrite Hres'.
Qed.

Lemma step_outcome s e :
  Inv 0 s → enabled s e → ∃ s', step api files s e = Some s' ∧ Inv 0 s' ∧ outcome s e s'.
Proof.
  intros Hinv Hen. destruct e as [|i|i f]; simpl in *.
  - destruct (ticks s) as [|i rest] eqn:Ht; [done|].
    eexists. split; [done|]. split; [by apply start_inv|by econstructor].
  - rewrite Hen.
    destruct (reading_file s i Hinv ltac:(eauto)) as [file Hf]. rewrite Hf.
    destruct (readFile_hit (store s) (fr_sha file)) as [cached|] eqn:Hhit.
    + destruct (finish_inv i s Hinv ltac:(eauto)) as (Hinv1 & Hri & Hwi & Hvi).
      destruct (settle_fulfilled i file cached _ Hinv1 Hf Hri Hwi Hvi)
        as (s' & Hs' & Hinv' & Hr' & Hw' & Hst' & Hp' & Hres').
      exists s'. split; [done|]. split; [done|].
      eapply read_fulfilled; eauto.
      rewrite Hp'. by rewrite <- (finish_permits i s).
    + eexists. split; [done|]. split; [by apply send_inv|by econstructor].
  - rewrite Hen.
    destruct (reading_file s i Hinv ltac:(eauto)) as [file Hf]. rewrite Hf.
    destruct (finish_inv i s Hinv ltac:(eauto)) as (Hinv1 & Hri & Hwi & Hvi).
    destruct (request f) as [data|err] eqn:Hreq.
    + pose proof (remember_inv 1 file data _ Hinv1) as Hinv2.
      destruct (settle_fulfilled i file data _ Hinv2 Hf Hri Hwi Hvi)
        as (s' & Hs' & Hinv' & Hr' & Hw' & Hst' & Hp' & Hres').
      exists s'. split; [done|]. split; [done|].
      eapply read_fulfilled; eauto.
      rewrite Hp'. by rewrite <- (finish_permits i s).
    + destruct (settle_rejected err _ Hinv1)
        as (s' & Hs' & Hinv' & Hr' & Hw' & Hst' & Hp' & Hres').
      exists s'. split; [done|]. split; [done|].
      eapply read_rejected; eauto.
      rewrite Hp'. by rewrite <- (finish_permits i s).
Qed.

Lemma step_enabled s e s' : step api files s e = Some s' → enabled s e.
Proof.
  destruct e as [|i|i f]; simpl.
  - by destruct (ticks s).
  - by destruct (reads s !! i) as [[]|].
  - by destruct (reads s !! i) as [[]|].
Qed.

Lemma step_inv s e s' : Inv 0 s → step api files s e = Some s' → Inv 0 s' ∧ outcome s e s'.
Proof.
  intros Hinv Hstep.
  destruct (step_outcome s e Hinv (step_enabled _ _ _ Hstep)) as (s'' & Hs'' & ?).
  by simplify_eq.
Qed.

Lemma run_inv s trace s' :
  Inv 0 s → run api files s trace = Some s' → Inv 0 s'.
Proof.
  revert s. induction trace as [|e trace IH]; intros s Hinv; simpl.
  - by intros [= <-].
  - destruct (step api files s e) as [s1|] eqn:Hstep; [|done].
    apply IH. by eapply step_inv.
Qed.

(** *** The state that [fetchFiles] leaves behind *)

Lemma schedule_file_scheduled cached k s :
  (k < length files)%nat → Scheduled files cached k s →
  Scheduled files cached (S k) (schedule_file s k).
Proof.
  intros Hk [[Hcap Hcur Hle Hnd Hw Hr Hv Hlen Hres] Ht Hq Hrd Hvs Hrs Hst Hcs].
  assert (reads s !! k = None) as Hrk.
  { destruct (reads s !! k) eqn:E; [|done]. specialize (Hrd k ltac:(eauto)). lia. }
  assert (k ∉ queue (sem s)) as Hqk.
  { intros Hin. specialize (Hq k Hin). lia. }
  assert (values s !! k = Some None) as Hvk.
  { rewrite Hvs. by apply lookup_replicate_2. }
  unfold schedule_file, take, waiting, permits_held in *. rewrite Ht in *.
  simpl in *.
  destruct (Z.ltb_spec (capacity (sem s)) (current (sem s) + 1)); simpl.
  - split; simpl; try done.
    + split; simpl; unfold waiting, permits_held; simpl; rewrite ?Ht; simpl;
        try done; try lia.
      * apply NoDup_app. split; [done|]. split; [|apply NoDup_singleton].
        intros i Hi ->%list_elem_of_singleton. done.
      * intros i [Hi| ->%list_elem_of_singleton]%elem_of_app; [by apply Hw|done].
    + intros i [Hi| ->%list_elem_of_singleton]%elem_of_app; [|lia].
      specialize (Hq i Hi). lia.
    + intros i Hi. specialize (Hrd i Hi). lia.
  - split; simpl; try done.
    + split; simpl; unfold waiting, permits_held; simpl; rewrite ?Ht; simpl;
        rewrite ?map_size_insert_None by done; try done; try lia.
      * intros i Hi. destruct (Hw i Hi) as [Hri Hvi]. split; [|done].
        rewrite lookup_insert_ne; [done|]. by intros ->.
      * intros i. rewrite lookup_insert. case_decide; [by subst|apply Hr].
    + intros i Hi. specialize (Hq i Hi). lia.
    + intros i. rewrite lookup_insert. case_decide; [lia|].
      intros Hi. specialize (Hrd i Hi). lia.
Qed.

Lemma schedule_all cached s0 k :
  Scheduled files cached 0 s0 → (k ≤ length files)%nat →
  Scheduled files cached k (foldl schedule_file s0 (seq 0 k)).
Proof.
  intros H0. induction k as [|k IH]; intros Hk; [done|].
  rewrite seq_S, foldl_app. simpl.
  apply schedule_file_scheduled; [lia|]. apply IH. lia.
Qed.

Lemma fetchFiles_inv cached :
  Inv 0 (fetchFiles files cached) ∧
  ∀ x, result (fetchFiles files cached) ≠ Some (Rejected x).
Proof.
  unfold fetchFiles.
  match goal with |- context [foldl schedule_file ?s0 _] => set (s0' := s0) end.
  assert (Scheduled files cached 0 s0') as H0.
  { split; simpl; try done; [|by intros i ?%elem_of_nil|].
    - split; simpl; unfold waiting, permits_held; simpl; try done.
      + apply NoDup_nil_2.
      + by intros i ?%elem_of_nil.
      + intros i. rewrite lookup_empty. by intros [? ?].
      + intros i v [? _]%lookup_replicate. done.
      + by rewrite length_replicate.
    - intros i. rewrite lookup_empty. by intros [? ?]. }
  destruct (schedule_all cached s0' (length files) H0 ltac:(lia))
    as [[Hcap Hcur Hle Hnd Hw Hr Hv Hlen Hres] Ht Hq Hrd Hvs Hrs Hst Hcs].
  split.
  - split; simpl; try done.
    intros l (l' & Hl' & [= ->])%fmap_Some. done.
  - intros x. simpl. unfold gather. by intros (l' & Hl' & [=])%fmap_Some.
Qed.

(** *** The result of the batch *)

Lemma outcome_keeps_result s e s' r :
  outcome s e s' → result s = Some r → result s' = Some r.
Proof.
  intros Ho Hr. destruct Ho as [| |e i file data s' _ _ _ _ _ _ Hres
                                  |i f err s' _ _ _ _ _ Hres]; simpl; try done.
  - by rewrite Hres, Hr.
  - by rewrite Hres, Hr.
Qed.

Lemma run_keeps_result s trace s' r :
  Inv 0 s → run api files s trace = Some s' →
  result s = Some r → result s' = Some r.
Proof.
  revert s. induction trace as [|e trace IH]; intros s Hinv; simpl.
  - by intros [= <-].
  - destruct (step api files s e) as [s1|] eqn:Hstep; [|done].
    destruct (step_inv _ _ _ Hinv Hstep) as [Hinv1 Ho].
    intros Hrun Hr. apply (IH s1 Hinv1 Hrun).
    by eapply outcome_keeps_result.
Qed.

(** While a read is in progress the batch cannot be fulfilled. *)
Lemma reading_not_fulfilled s i l :
  Inv 0 s → is_Some (reads s !! i) → result s ≠ Some (Fulfilled l).
Proof.
  intros [Hcap Hcur Hle Hnd Hw Hr Hv Hlen Hres] Hi Hl.
  eapply mapM_id_slot; [by apply Hres|by apply Hr].
Qed.

Lemma run_first_failure s trace s' err :
  Inv 0 s → (∀ x, result s ≠ Some (Rejected x)) →
  run api files s trace = Some s' → first_failure trace = Some err →
  result s' = Some (Rejected err).
Proof.
  revert s. induction trace as [|e trace IH]; intros s Hinv Hnr; simpl; [done|].
  destruct (step api files s e) as [s1|] eqn:Hstep; [|done].
  destruct (step_inv _ _ _ Hinv Hstep) as [Hinv1 Ho].
  intros Hrun Hfail.
  destruct Ho as [i rest Ht|i file Hi Hf Hmiss
                  |e i file data s1 Hi Hf He Hrd Hw Hp Hres
                  |i f err' s1 Hi Hreq Hrd Hw Hp Hres].
  - apply (IH _ Hinv1); try done.
  - apply (IH _ Hinv1); try done.
  - apply (IH _ Hinv1); try done.
    + intros x. rewrite Hres. destruct (result s) as [r|] eqn:Hr; [apply Hnr|].
      unfold gather. by intros (l' & Hl' & [=])%fmap_Some.
    + destruct He as [[-> _]|(f & -> & Hreq)]; [done|].
      by rewrite Hreq in Hfail.
  - rewrite Hreq in Hfail. injection Hfail as ->.
    apply (run_keeps_result s1 trace s' _ Hinv1 Hrun).
    rewrite Hres. destruct (result s) as [[l|x]|] eqn:Hr; [|by destruct (Hnr x)|done].
    destruct (reading_not_fulfilled s i l Hinv ltac:(eauto) Hr).
Qed.

Lemma fulfilled_in_order s l :
  Inv 0 s → result s = Some (Fulfilled l) → map ff_file l = files.
Proof.
  intros [Hcap Hcur Hle Hnd Hw Hr Hv Hlen Hres] Hl.
  apply Hres, mapM_Some_1 in Hl.
  apply list_eq. intros i. rewrite list_lookup_fmap.
  destruct (l !! i) as [v|] eqn:Hli; simpl.
  - destruct (Forall2_lookup_r _ _ _ _ _ Hl Hli) as (o & Ho & Hov).
    simpl in Hov. subst o. symmetry. by apply Hv.
  - symmetry. apply lookup_ge_None. rewrite <- Hlen.
    rewrite (Forall2_length _ _ _ Hl). by apply lookup_ge_None.
Qed.

(** C8. In every state that a call of [fetchFiles] can reach, at most
    [MAX_CONCURRENT_DOWNLOADS] = 10 reads hold a permit, and the counter of
    the semaphore is the number of these reads. A read that ends gives its
    permit up, however it ends: whatever the network answers (a body, an
    error of the remote, a failure of the transport), and on a hit of the
    cache; the permit goes back to the semaphore or on to the head of the
    queue. *)
Theorem fetch_permits_bounded cached trace s :
  run api files (fetchFiles files cached) trace = Some s →
  (MAX_CONCURRENT_DOWNLOADS = 10 ∧
   Z.of_nat (permits_held s) ≤ MAX_CONCURRENT_DOWNLOADS ∧
   current (sem s) = Z.of_nat (permits_held s)) ∧
  (∀ i f, reads s !! i = Some Fetching →
     ∃ s', step api files s (NetAnswer i f) = Some s' ∧ ¬ holds s' i ∧
           (S (permits_held s' + length (queue (sem s')))
            = permits_held s + length (queue (sem s)))%nat) ∧
  (∀ i file data, reads s !! i = Some Lookup → files !! i = Some file →
     readFile_hit (store s) (fr_sha file) = Some data →
     ∃ s', step api files s (CacheAnswer i) = Some s' ∧ ¬ holds s' i ∧
           (S (permits_held s' + length (queue (sem s')))
            = permits_held s + length (queue (sem s)))%nat).
Proof.
  intros Hrun.
  pose proof (run_inv _ _ _ (proj1 (fetchFiles_inv cached)) Hrun) as Hinv.
  assert (∀ i s', is_Some (reads s !! i) → reads s' = delete i (reads s) →
                  waiting s' = waiting s → ¬ holds s' i) as Hgone.
  { intros i s' Hi Hrd Hw [Hin|Hin].
    - assert (i ∈ waiting s) as Hiw.
      { rewrite <- Hw. unfold waiting. apply elem_of_app. by left. }
      destruct Hinv as [_ _ _ _ Hwait _ _ _ _].
      destruct (Hwait i Hiw) as [Hnone _]. destruct Hi. congruence.
    - rewrite Hrd, lookup_delete_eq in Hin. by destruct Hin. }
  split; [|split].
  - destruct Hinv as [Hcap Hcur Hle _ _ _ _ _ _].
    split; [done|]. split; lia.
  - intros i f Hi.
    destruct (step_outcome s (NetAnswer i f) Hinv Hi) as (s' & Hs' & _ & Ho).
    exists s'. split; [done|].
    inversion Ho as [| |e j file data s1 Hj Hf He Hrd Hw Hp Hres
                     |j f' err s1 Hj Hreq Hrd Hw Hp Hres]; subst.
    + destruct He as [[[=] _]|(f' & [= -> ->] & _)]. eauto.
    + eauto.
  - intros i file data Hi Hf Hhit.
    destruct (step_outcome s (CacheAnswer i) Hinv Hi) as (s' & Hs' & _ & Ho).
    exists s'. split; [done|].
    inversion Ho as [|j file' Hj Hf' Hmiss
                     |e j file' data' s1 Hj Hf' He Hrd Hw Hp Hres|]; subst.
    + congruence.
    + destruct He as [[[= ->] _]|(f' & [=] & _)]. eauto.
Qed.


End FetchInvariant.

Section FetchData.

Variable api : API.
Variable files : list FileRef.

Local Abbreviation Inv := (Invariant files).

(** *** The data of the batch *)

(** An event fills the slot of the read that it fulfils, and no other. *)
Lemma step_values s e s' :
  Inv 0 s → step api files s e = Some s' →
  match delivery files s e with
  | Some (i, data) =>
      ∃ file, files !! i = Some file ∧ values s !! i = Some None ∧
              values s' = <[i := Some {| ff_file := file; ff_data := data |}]> (values s)
  | None => values s' = values s
  end.
Proof.
  intros [_ _ _ _ _ Hr _ _ _]. destruct e as [|i|i f]; simpl.
  - destruct (ticks s); [done|]. by intros [= <-].
  - destruct (reads s !! i) as [[|]|] eqn:Hi; try done.
    destruct (files !! i) as [file|] eqn:Hf; [|done].
    destruct (readFile_hit (store s) (fr_sha file)) as [cached|]; simpl.
    + unfold release. destruct (leave _) as [[sem' next]|]; [|done].
      intros [= <-]. exists file. split_and!; try done. apply Hr. by rewrite Hi.
    + by intros [= <-].
  - destruct (reads s !! i) as [[|]|] eqn:Hi; try done.
    destruct (files !! i) as [file|] eqn:Hf; [|done].
    destruct (request f) as [data|err].
    + unfold release. destruct (leave _) as [[sem' next]|]; [|done].
      intros [= <-]. exists file. split_and!; try done. apply Hr. by rewrite Hi.
    + unfold release. destruct (leave _) as [[sem' next]|]; [|done].
      by intros [= <-].
Qed.

(** A slot that is filled stays as it is. *)
Lemma run_values_keep s trace s' i v :
  Inv 0 s → run api files s trace = Some s' →
  values s !! i = Some (Some v) → values s' !! i = Some (Some v).
Proof.
  revert s. induction trace as [|e trace IH]; intros s Hinv; simpl.
  - by intros [= <-].
  - destruct (step api files s e) as [s1|] eqn:Hstep; [|done].
    intros Hrun Hv. apply (IH s1); [by eapply step_inv|done|].
    pose proof (step_values s e s1 Hinv Hstep) as Hvals.
    destruct (delivery files s e) as [[j data]|].
    + destruct Hvals as (file & _ & Hj & ->).
      rewrite list_lookup_insert_ne; [done|]. intros ->. congruence.
    + by rewrite Hvals.
Qed.

(** Every read that a run fulfils has its data in its slot. *)
Lemma deliveries_values s trace s' i data :
  Inv 0 s → run api files s trace = Some s' →
  (i, data) ∈ deliveries api files s trace →
  ∃ file, files !! i = Some file ∧
          values s' !! i = Some (Some {| ff_file := file; ff_data := data |}).
Proof.
  revert s. induction trace as [|e trace IH]; intros s Hinv; simpl.
  - by intros _ ?%elem_of_nil.
  - destruct (step api files s e) as [s1|] eqn:Hstep; [|done].
    destruct (step_inv _ _ _ _ _ Hinv Hstep) as [Hinv1 _].
    intros Hrun [Hnow|Hlater]%elem_of_app; [|by apply (IH s1)].
    pose proof (step_values s e s1 Hinv Hstep) as Hvals.
    destruct (delivery files s e) as [[j d]|]; simpl in Hnow;
      [|by apply elem_of_nil in Hnow].
    apply list_elem_of_singleton in Hnow as [= -> ->].
    destruct Hvals as (file & Hf & Hj & Hvals). exists file. split; [done|].
    apply (run_values_keep s1 trace s' _ _ Hinv1 Hrun).
    rewrite Hvals. apply list_lookup_insert_eq. by eapply lookup_lt_Some.
Qed.

(** Every slot that a run fills holds the data of a read that it
    fulfilled. *)
Lemma values_deliveries s trace s' i v :
  Inv 0 s → run api files s trace = Some s' →
  values s' !! i = Some (Some v) →
  values s !! i = Some (Some v) ∨
  (i, ff_data v) ∈ deliveries api files s trace.
Proof.
  revert s. induction trace as [|e trace IH]; intros s Hinv; simpl.
  - intros [= <-]. by left.
  - destruct (step api files s e) as [s1|] eqn:Hstep; [|done].
    destruct (step_inv _ _ _ _ _ Hinv Hstep) as [Hinv1 _].
    intros Hrun Hv. destruct (IH s1 Hinv1 Hrun Hv) as [Hs1|Hlater].
    + pose proof (step_values s e s1 Hinv Hstep) as Hvals.
      destruct (delivery files s e) as [[j d]|]; simpl.
      * destruct Hvals as (file & Hf & Hj & Hvals). rewrite Hvals in Hs1.
        destruct (decide (j = i)) as [->|Hji].
        -- rewrite list_lookup_insert_eq in Hs1 by (by eapply lookup_lt_Some).
           injection Hs1 as <-. right. by left.
        -- rewrite list_lookup_insert_ne in Hs1 by done. by left.
      * rewrite Hvals in Hs1. by left.
    + right. apply elem_of_app. by right.
Qed.

Lemma fetchFiles_values cached :
  values (fetchFiles files cached) = replicate (length files) None.
Proof.
  unfold fetchFiles. simpl.
  match goal with |- context [foldl schedule_file ?s0 _] => set (s0' := s0) end.
  assert (Scheduled files cached 0 s0') as H0.
  { split; simpl; try done; [|by intros i ?%elem_of_nil|].
    - split; simpl; unfold waiting, permits_held; simpl; try done.
      + apply NoDup_nil_2.
      + by intros i ?%elem_of_nil.
      + intros i. rewrite lookup_empty. by intros [? ?].
      + intros i v [? _]%lookup_replicate. done.
      + by rewrite length_replicate.
    - intros i. rewrite lookup_empty. by intros [? ?]. }
  by destruct (schedule_all files cached s0' (length files) H0 ltac:(lia)).
Qed.

Lemma fulfilled_data cached trace s l i v :
  run api files (fetchFiles files cached) trace = Some s →
  result s = Some (Fulfilled l) → l !! i = Some v →
  (i, ff_data v) ∈ deliveries api files (fetchFiles files cached) trace ∧
  ∀ data, (i, data) ∈ deliveries api files (fetchFiles files cached) trace →
          data = ff_data v.
Proof.
  intros Hrun Hl Hi.
  destruct (fetchFiles_inv files cached) as [Hinv0 _].
  pose proof (run_inv _ _ _ _ _ Hinv0 Hrun) as Hinv.
  assert (values s !! i = Some (Some v)) as Hv.
  { destruct Hinv as [_ _ _ _ _ _ _ _ Hres].
    apply Hres, mapM_Some_1 in Hl.
    destruct (Forall2_lookup_r _ _ _ _ _ Hl Hi) as (o & Ho & Hov).
    simpl in Hov. by subst o. }
  split.
  - destruct (values_deliveries _ _ _ _ _ Hinv0 Hrun Hv) as [Hinit|Hin]; [|done].
    rewrite fetchFiles_values in Hinit.
    by apply lookup_replicate in Hinit as [? _].
  - intros data Hin.
    destruct (deliveries_values _ _ _ _ _ Hinv0 Hrun Hin) as (file & _ & Hv').
    rewrite Hv in Hv'. by injection Hv' as ->.
Qed.

(** C10. When the promise that [fetchFiles] returned is fulfilled, the
    [i]-th element of its list is the object made for the [i]-th file of
    the input: its file is that file, and its data is what the read of that
    file was fulfilled with, the only data that the run delivered for [i];
    this in whatever order the reads ended. *)
Theorem fetch_result_in_input_order cached trace s l :
  run api files (fetchFiles files cached) trace = Some s →
  result s = Some (Fulfilled l) →
  map ff_file l = files ∧
  ∀ i v, l !! i = Some v →
    (i, ff_data v) ∈ deliveries api files (fetchFiles files cached) trace ∧
    ∀ data, (i, data) ∈ deliveries api files (fetchFiles files cached) trace →
            data = ff_data v.
Proof.
  intros Hrun Hl. split.
  - eapply fulfilled_in_order; [|done].
    eapply run_inv; [|done]. apply fetchFiles_inv.
  - intros i v Hi. by eapply fulfilled_data.
Qed.

End FetchData.

(** *** Sample batches *)

Lemma fetch_permits_bounded_witness :
  Z.of_nat (permits_held (state_after batch ∅ batch_trace))
  ≤ MAX_CONCURRENT_DOWNLOADS.
Proof.
  refine (proj1 (proj2 (proj1 (fetch_permits_bounded sample_api batch ∅
                                 batch_trace _ _)))).
  vm_compute. reflexivity.
Defined.

(** Twelve reads for ten permits: ten hold one, two wait. *)
Example batch_begins :
  let s := fetchFiles batch ∅ in
  permits_held s = 10%nat ∧ queue (sem s) = [10; 11]%nat ∧ result s = None.
Proof. vm_compute. done. Qed.

Example batch_after_trace :
  let s := state_after batch ∅ batch_trace in
  permits_held s = 10%nat ∧ queue (sem s) = [] ∧ ticks s = [11%nat] ∧
  result s = Some (Rejected (APIError (Some (JStr (lit "Failed to fetch"))) None "GitLab")).
Proof. vm_compute. done. Qed.


Lemma fetch_result_in_input_order_witness :
  let l := [ {| ff_file := a_md; ff_data := BodyText (lit "X") |};
             {| ff_file := b_md; ff_data := BodyText (lit "B") |} ] in
  map ff_file l = [a_md; b_md] ∧
  ∀ i v, l !! i = Some v →
    (i, ff_data v)
      ∈ deliveries sample_api [a_md; b_md] (fetchFiles [a_md; b_md] cache_h1)
          reversed_trace ∧
    ∀ data,
      (i, data) ∈ deliveries sample_api [a_md; b_md]
                    (fetchFiles [a_md; b_md] cache_h1) reversed_trace →
      data = ff_data v.
Proof.
  refine (fetch_result_in_input_order sample_api [a_md; b_md] cache_h1
            reversed_trace (state_after [a_md; b_md] cache_h1 reversed_trace) _ _ _).
  - vm_compute. reflexivity.
  - vm_compute. reflexivity.
Defined.

(** The second file is delivered first, and comes second in the result. *)
Example reversed_deliveries :
  deliveries sample_api [a_md; b_md] (fetchFiles [a_md; b_md] cache_h1)
    reversed_trace
  = [(1%nat, BodyText (lit "B")); (0%nat, BodyText (lit "X"))] ∧
  result (state_after [a_md; b_md] cache_h1 reversed_trace)
  = Some (Fulfilled [ {| ff_file := a_md; ff_data := BodyText (lit "X") |};
                      {| ff_file := b_md; ff_data := BodyText (lit "B") |} ]).
Proof. vm_compute. done. Qed.

(** The scenario of the specification: the only file is in the cache, the
    batch is fulfilled with the cached content and no request goes out. *)
Example fetch_cached_file :
  let s := state_after [a_md] cache_h1 [CacheAnswer 0%nat] in
  result s = Some (Fulfilled [ {| ff_file := a_md; ff_data := BodyText (lit "X") |} ]) ∧
  calls s = [].
Proof. vm_compute. done. Qed.

(** An empty batch is fulfilled at once. *)
Example fetch_nothing : result (fetchFiles [] ∅) = Some (Fulfilled []).
Proof. reflexivity. Qed.

(** ** Addresses *)

(** Induction on a string, one or two code units at a time. *)
Lemma jsstring_pair_ind (P : jsstring → Prop) :
  P [] → (∀ c, P [c]) → (∀ c k s, P s → P (k :: s) → P (c :: k :: s)) →
  ∀ s, P s.
Proof.
  intros Hnil Hone Hstep s.
  assert (P s ∧ ∀ c, P (c :: s)) as [? _]; [|done].
  induction s as [|k s [IH1 IH2]]; [by split|].
  split; [apply IH2|]. intros c. by apply Hstep.
Qed.

Lemma hex_digit_unreserved n : unreserved (hex_digit n) = true.
Proof.
  unfold hex_digit. generalize (N.to_nat n). intros m.
  do 16 (destruct m as [|m]; [reflexivity|]). by destruct m.
Qed.

Lemma escape_safe v : Forall (λ c, url_safe c = true) (escape v).
Proof.
  unfold escape. apply Forall_concat, Forall_forall.
  intros p (octet & -> & _)%list_elem_of_fmap.
  unfold percent, url_safe.
  repeat constructor; by rewrite ?hex_digit_unreserved.
Qed.

Lemma encodeURIComponent_safe s out :
  encodeURIComponent s = Some out → Forall (λ c, url_safe c = true) out.
Proof.
  revert out. induction s as [|c|c k s IH1 IH2] using jsstring_pair_ind;
    intros out; simpl.
  - by intros [= <-].
  - destruct (unreserved c) eqn:Hc.
    + intros [= <-]. repeat constructor. unfold url_safe. by rewrite Hc.
    + destruct (low_surrogate c); [done|]. destruct (high_surrogate c); [done|].
      intros [= <-]. rewrite app_nil_r. apply escape_safe.
  - destruct (unreserved c) eqn:Hc.
    + intros (out' & Hout' & ->)%fmap_Some. constructor.
      * unfold url_safe. by rewrite Hc.
      * by apply IH2.
    + destruct (low_surrogate c); [done|]. destruct (high_surrogate c).
      * destruct (low_surrogate k); [|done].
        intros (out' & Hout' & ->)%fmap_Some.
        apply Forall_app. split; [apply escape_safe|by apply IH1].
      * intros (out' & Hout' & ->)%fmap_Some.
        apply Forall_app. split; [apply escape_safe|by apply IH2].
Qed.

(** Whatever the input, the output of [encodeURIComponent] is made of
    unreserved code units and percent signs: none of the delimiters of a
    URL ([& = ? # / +], the space) occurs in it. *)
Lemma encodeURIComponent_no_delimiter s out :
  encodeURIComponent s = Some out →
  Forall (λ c, url_safe c = true) out ∧
  ∀ d, d ∈ lit "&=?#/+ " → d ∉ out.
Proof.
  intros Hout. pose proof (encodeURIComponent_safe s out Hout) as Hsafe.
  split; [done|]. intros d Hd Hin.
  rewrite Forall_forall in Hsafe. specialize (Hsafe d Hin).
  simpl in Hd. repeat (apply elem_of_cons in Hd as [->|Hd]; [done|]).
  by apply elem_of_nil in Hd.
Qed.

Lemma encodeURIComponent_unreserved s :
  Forall (λ c, unreserved c = true) s → encodeURIComponent s = Some s.
Proof.
  induction 1 as [|c s Hc _ IH]; [done|]. simpl. by rewrite Hc, IH.
Qed.

Lemma encodeURIComponent_total s :
  Forall (λ c, surrogate c = false) s → is_Some (encodeURIComponent s).
Proof.
  induction 1 as [|c s Hc _ [out IH]]; [by eexists|]. simpl.
  unfold surrogate in Hc. apply orb_false_iff in Hc as [-> ->].
  rewrite IH. destruct (unreserved c); by eexists.
Qed.

Lemma between_out lo hi c : (c < lo ∨ hi < c)%N → between lo hi c = false.
Proof.
  intros H. unfold between. apply andb_false_iff.
  destruct H; [left|right]; apply N.leb_gt; lia.
Qed.

Lemma high_surrogate_only c :
  high_surrogate c = true → unreserved c = false ∧ low_surrogate c = false.
Proof.
  unfold high_surrogate, between. intros [H1 H2]%andb_true_iff.
  apply N.leb_le in H1, H2. split.
  - unfold unreserved. rewrite !between_out by lia. simpl.
    repeat (apply orb_false_iff; split; [apply N.eqb_neq; lia|]). done.
  - apply between_out. lia.
Qed.

(** A lone surrogate, wherever the encoding reaches it, raises the error:
    a string that ends in a high surrogate cannot be encoded. *)
Lemma encodeURIComponent_lone_high s c :
  high_surrogate c = true → encodeURIComponent (s ++ [c]) = None.
Proof.
  intros Hc.
  destruct (high_surrogate_only c Hc) as [Hu Hl].
  induction s as [|a|a k s IH1 IH2] using jsstring_pair_ind; simpl.
  - by rewrite Hu, Hl, Hc.
  - rewrite Hu, Hl, Hc.
    destruct (unreserved a); [done|]. destruct (low_surrogate a); [done|].
    by destruct (high_surrogate a).
  - simpl in IH2. destruct (unreserved a).
    + by rewrite IH2.
    + destruct (low_surrogate a); [done|]. destruct (high_surrogate a).
      * destruct (low_surrogate k); [|done]. by rewrite IH1.
      * by rewrite IH2.
Qed.

(** *** Splitting and joining *)

Lemma split_on_plain sep p : sep ∉ p → split_on sep p = [p].
Proof.
  induction p as [|c p IH]; [done|]. intros Hp. simpl.
  apply not_elem_of_cons in Hp as [Hc Hp].
  destruct (N.eqb_spec c sep) as [->|_]; [done|]. by rewrite IH.
Qed.

Lemma split_on_app sep p rest :
  sep ∉ p → split_on sep (p ++ sep :: rest) = p :: split_on sep rest.
Proof.
  induction p as [|c p IH]; intros Hp; simpl.
  - by rewrite N.eqb_refl.
  - apply not_elem_of_cons in Hp as [Hc Hp].
    destruct (N.eqb_spec c sep) as [->|_]; [done|]. by rewrite IH.
Qed.

Lemma split_on_join sep pieces :
  pieces ≠ [] → Forall (λ p, sep ∉ p) pieces →
  split_on sep (join [sep] pieces) = pieces.
Proof.
  intros Hne Hall. induction Hall as [|p pieces Hp Hall IH]; [done|].
  destruct pieces as [|q pieces].
  - simpl. by apply split_on_plain.
  - change (join [sep] (p :: q :: pieces)) with (p ++ sep :: join [sep] (q :: pieces)).
    rewrite split_on_app by done. by rewrite IH.
Qed.

Lemma url_param_no_ampersand kv p :
  38%N ∉ lit kv.1 → url_param kv = Some p → 38%N ∉ p.
Proof.
  intros Hk (v & Hv & ->)%fmap_Some Hin.
  apply elem_of_app in Hin as [Hin|Hin]; [done|].
  apply elem_of_cons in Hin as [[=]|Hin].
  pose proof (encodeURIComponent_safe _ _ Hv) as Hsafe.
  rewrite Forall_forall in Hsafe. by apply Hsafe in Hin.
Qed.

Lemma url_params_no_ampersand kvs ps :
  Forall2 (λ kv p, url_param kv = Some p) kvs ps →
  Forall (λ kv, 38%N ∉ lit kv.1) kvs → Forall (λ p, 38%N ∉ p) ps.
Proof.
  induction 1 as [|kv p kvs ps Hp _ IH]; intros Hkeys; [done|].
  apply Forall_cons in Hkeys as [Hk Hkeys].
  constructor; [by eapply url_param_no_ampersand|by apply IH].
Qed.

(** X1. The address built by [urlFor]: without parameters it is the root
    followed by the path; with parameters a question mark and the query
    follow, and splitting the query at the ampersands gives back one piece
    [key=value] per parameter, in order, the value encoded: a value cannot
    add or hide a parameter. *)
Theorem urlFor_query api path opts url :
  urlFor api path opts = Some url →
  Forall (λ kv, 38%N ∉ lit kv.1) (params opts) →
  match params opts with
  | [] => url = api_root api ++ path
  | _ :: _ =>
      ∃ query, url = api_root api ++ path ++ lit "?" ++ query ∧
        Forall2 (λ kv piece, ∃ v, encodeURIComponent kv.2 = Some v ∧
                                  piece = lit kv.1 ++ lit "=" ++ v)
                (params opts) (split_on 38 query)
  end.
Proof.
  unfold urlFor. intros (ps & Hps & [= <-])%bind_Some Hkeys.
  apply mapM_Some_1 in Hps.
  destruct (params opts) as [|kv kvs] eqn:Hparams.
  - by apply Forall2_nil_inv_l in Hps as ->.
  - destruct ps as [|p ps']; [by apply Forall2_nil_inv_r in Hps|].
    exists (join (lit "&") (p :: ps')). split; [done|].
    change (lit "&") with [38%N]. rewrite split_on_join; [|done|].
    + eapply Forall2_impl; [done|]. intros kv' p' Hp'.
      by apply fmap_Some in Hp'.
    + by eapply url_params_no_ampersand.
Qed.

Lemma urlFor_query_witness :
  ∃ query,
    lit "https://gitlab.com/api/v3/projects/owner%2Fsite/repository/files?file_path=a%20b%26c.md&ref=master"
    = api_root sample_api ++ (repoURL sample_api ++ lit "/files") ++ lit "?" ++ query ∧
    Forall2 (λ kv piece, ∃ v, encodeURIComponent kv.2 = Some v ∧
                              piece = lit kv.1 ++ lit "=" ++ v)
            [("file_path"%string, lit "a b&c.md"); ("ref"%string, lit "master")]
            (split_on 38 query).
Proof.
  apply (urlFor_query sample_api (repoURL sample_api ++ lit "/files")
           (call_options (getFile_call sample_api (lit "a b&c.md")))).
  - vm_compute. reflexivity.
  - repeat constructor; vm_compute; intros H;
      repeat (apply elem_of_cons in H as [[=]|H]); by apply elem_of_nil in H.
Defined.

(** X2. [urlFor] raises no error when no value of a parameter holds a
    surrogate; a value that ends in a high surrogate makes it raise the
    [URIError], so that [request] throws before anything is fetched. *)
Theorem urlFor_defined api path opts :
  (Forall (λ kv, Forall (λ c, surrogate c = false) kv.2) (params opts) →
   is_Some (urlFor api path opts)) ∧
  (∀ k v c, (k, v ++ [c]) ∈ params opts → high_surrogate c = true →
   urlFor api path opts = None ∧
   request_args api {| call_path := path; call_options := opts |} = None).
Proof.
  split.
  - intros Hall. unfold urlFor.
    assert (is_Some (mapM url_param (params opts))) as [ps ->]; [|by eexists].
    apply mapM_is_Some, Forall_forall. intros kv Hkv. simpl.
    rewrite Forall_forall in Hall. specialize (Hall kv Hkv).
    destruct (encodeURIComponent_total _ Hall) as [v Hv].
    unfold url_param. rewrite Hv. by eexists.
  - intros k v c Hin Hc.
    assert (urlFor api path opts = None) as Hurl.
    { unfold urlFor.
      assert (mapM url_param (params opts) = None) as ->; [|done].
      apply mapM_None, Exists_exists. exists (k, v ++ [c]). split; [done|].
      unfold url_param. simpl. by rewrite encodeURIComponent_lone_high. }
    split; [done|]. unfold request_args. simpl. by rewrite Hurl.
Qed.

Lemma urlFor_defined_witness :
  is_Some (urlFor sample_api (lit "/user") (call_options user_call)) ∧
  urlFor sample_api (repoURL sample_api ++ lit "/files")
    (call_options (getFile_call sample_api (lit "a" ++ [55357%N]))) = None.
Proof.
  split.
  - apply (proj1 (urlFor_defined sample_api (lit "/user") (call_options user_call))).
    constructor.
  - apply (proj2 (urlFor_defined sample_api (repoURL sample_api ++ lit "/files")
                    (call_options (getFile_call sample_api (lit "a" ++ [55357%N]))))
             "file_path"%string (lit "a") 55357%N).
    + by left.
    + reflexivity.
Defined.

(** ** Headers *)

(** X3. The headers of a request. With a token the [Authorization]
    header is the bearer token, whatever the caller passed under that name;
    without one the caller's [Authorization], if any, goes out unchanged.
    The content type is the caller's, and [application/json] when the
    caller gave none; every other header of the caller is kept as it is. *)
Theorem requestHeaders_spec api (headers : gmap string jsstring) :
  (∀ t, token api = Some t → truthy_string t = true →
     requestHeaders api headers !! "Authorization"%string
     = Some (lit "Bearer " ++ t)) ∧
  (token api = None ∨ token api = Some [] →
     requestHeaders api headers !! "Authorization"%string
     = headers !! "Authorization"%string) ∧
  requestHeaders api headers !! "Content-Type"%string
  = Some (default (lit "application/json") (headers !! "Content-Type"%string)) ∧
  (∀ k, k ≠ "Authorization"%string → k ≠ "Content-Type"%string →
     requestHeaders api headers !! k = headers !! k).
Proof.
  assert (∀ k, k ≠ "Content-Type"%string →
    (headers ∪ {["Content-Type"%string := lit "application/json"]}) !! k
    = headers !! k) as Hother.
  { intros k Hk. rewrite lookup_union, lookup_singleton_ne by done.
    by destruct (headers !! k). }
  assert ((headers ∪ {["Content-Type"%string := lit "application/json"]})
            !! "Content-Type"%string
          = Some (default (lit "application/json") (headers !! "Content-Type"%string)))
    as Hct.
  { rewrite lookup_union, lookup_singleton_eq. by destruct (headers !! _). }
  unfold requestHeaders. split_and!.
  - intros t -> ->. by rewrite lookup_insert_eq.
  - intros [->| ->]; simpl; by apply Hother.
  - destruct (token api) as [t|]; [destruct (truthy_string t)|]; try done.
    by rewrite lookup_insert_ne.
  - intros k Hk1 Hk2.
    destruct (token api) as [t|]; [destruct (truthy_string t)|];
      rewrite ?lookup_insert_ne by done; by apply Hother.
Qed.

Lemma requestHeaders_spec_witness :
  requestHeaders sample_api {["Authorization"%string := lit "Basic abc"]}
    !! "Authorization"%string = Some (lit "Bearer " ++ lit "secret").
Proof.
  apply (proj1 (requestHeaders_spec sample_api
                  {["Authorization"%string := lit "Basic abc"]}) (lit "secret"));
    reflexivity.
Defined.

(** ** The constructor of the client *)

Lemma or_else_truthy v d : truthy_string d = true → or_else v d ≠ [].
Proof.
  intros Hd. unfold or_else.
  destruct v as [[|c s]|]; simpl; try done; by destruct d.
Qed.

(** X4. A client that [new API] has built: its root and its branch are
    never empty (an empty string in the configuration gives way to the
    default), its token is never the empty string, and in [repoURL] the
    repository is one segment of the path: its slashes are escaped. A
    repository of unreserved code units stands there as it is. *)
Theorem new_API_built config api :
  new_API config = Some api →
  api_root api ≠ [] ∧ branch api ≠ [] ∧ token api ≠ Some [] ∧
  (∃ segment, repoURL api = lit "/projects/" ++ segment ++ lit "/repository" ∧
              encodeURIComponent (repo api) = Some segment ∧
              (47%N ∉ segment) ∧ (63%N ∉ segment) ∧ (35%N ∉ segment)) ∧
  (Forall (λ c, unreserved c = true) (repo api) →
   repoURL api = lit "/projects/" ++ repo api ++ lit "/repository").
Proof.
  unfold new_API. intros (segment & Hseg & [= <-])%bind_Some. simpl.
  split_and!.
  - by apply or_else_truthy.
  - by apply or_else_truthy.
  - destruct (cfg_token config) as [[|c t]|]; simpl; congruence.
  - exists segment. split_and!; try done;
      apply (encodeURIComponent_no_delimiter _ _ Hseg); simpl;
      rewrite !elem_of_cons; tauto.
  - intros Hplain. rewrite (encodeURIComponent_unreserved _ Hplain) in Hseg.
    by injection Hseg as <-.
Qed.

Lemma new_API_built_witness :
  ∃ segment, lit "/projects/owner%2Fsite/repository"
             = lit "/projects/" ++ segment ++ lit "/repository" ∧
             encodeURIComponent (lit "owner/site") = Some segment ∧
             (47%N ∉ segment) ∧ (63%N ∉ segment) ∧ (35%N ∉ segment).
Proof.
  apply (new_API_built
           {| cfg_api_root := None; cfg_token := Some (lit "secret");
              cfg_branch := Some []; cfg_repo := Some (lit "owner/site") |}
           {| api_root := lit "https://gitlab.com/api/v3";
              token := Some (lit "secret"); branch := lit "master";
              repo := lit "owner/site";
              repoURL := lit "/projects/owner%2Fsite/repository" |}).
  reflexivity.
Defined.

(** ** Branches *)

(** X5. The address of a branch, for [getBranch] and [deleteBranch]: the
    name is one segment below [/branches/], a slash, a question mark or a
    hash sign in it is escaped; [getBranch] without an argument asks for
    the branch of the client; and [deleteBranch] goes to the address that
    [getBranch] reads, with the method [DELETE]. *)
Theorem branch_calls api name c :
  getBranch_call api (Some name) = Some c →
  (∃ segment, call_path c = repoURL api ++ lit "/branches/" ++ segment ∧
              (47%N ∉ segment) ∧ (63%N ∉ segment) ∧ (35%N ∉ segment)) ∧
  method (call_options c) = None ∧
  (∃ d, deleteBranch_call api name = Some d ∧ call_path d = call_path c ∧
        method (call_options d) = Some "DELETE"%string) ∧
  getBranch_call api None = getBranch_call api (Some (branch api)).
Proof.
  unfold getBranch_call, deleteBranch_call. simpl.
  intros (segment & Hseg & [= <-])%bind_Some. rewrite Hseg. simpl.
  split_and!; try done; [|by eexists].
  exists segment. split_and!; try done;
    apply (encodeURIComponent_no_delimiter _ _ Hseg); simpl;
    rewrite !elem_of_cons; tauto.
Qed.

Lemma branch_calls_witness :
  ∃ segment,
    lit "/projects/owner%2Fsite/repository/branches/feature%2Flogin"
    = repoURL sample_api ++ lit "/branches/" ++ segment ∧
    (47%N ∉ segment) ∧ (63%N ∉ segment) ∧ (35%N ∉ segment).
Proof.
  apply (proj1 (branch_calls sample_api (lit "feature/login")
    {| call_path := lit "/projects/owner%2Fsite/repository/branches/feature%2Flogin";
       call_options := {| method := None; params := []; payload := None;
                          cache := None |} |} eq_refl)).
Defined.

(** ** The backend and its client *)

(** X6. From the configuration to the client: after [new GitLab] and
    [setUser], [getToken] gives the token of the user, and the client works
    on the default root, on the repository of the configuration and on its
    branch, or on [master] when the configuration names no branch or an
    empty one. *)
Theorem setUser_client cfg proxied this user_token this' api :
  constructor cfg proxied = inr this →
  setUser this user_token = Some (this', api) →
  getToken this' = user_token ∧
  token api = (if truthy_string user_token then Some user_token else None) ∧
  api_root api = lit "https://gitlab.com/api/v3" ∧
  repo api = default [] (backend_repo cfg) ∧
  branch api = or_else (backend_branch cfg) (lit "master") ∧
  branch api ≠ [].
Proof.
  intros Hthis Hset.
  assert (this = {| gl_config := cfg; gl_repo := default [] (backend_repo cfg);
                    gl_branch := default (lit "master") (backend_branch cfg);
                    gl_token := [] |}) as ->.
  { unfold constructor in Hthis.
    destruct (negb proxied && _); [done|]. destruct (bool_decide _); [done|].
    by injection Hthis. }
  unfold setUser in Hset.
  apply bind_Some in Hset as (api0 & Hapi & [= <- <-]).
  unfold new_API in Hapi.
  apply bind_Some in Hapi as (segment & Hseg & [= <-]).
  cbn [getToken gl_token gl_branch gl_repo token api_root repo branch
       cfg_token cfg_api_root cfg_branch cfg_repo].
  split_and!; try done.
  - by destruct (backend_repo cfg) as [[|]|].
  - by destruct (backend_branch cfg) as [[|]|].
  - by destruct (backend_branch cfg) as [[|]|].
Qed.

Lemma setUser_client_witness :
  branch sample_api = lit "master" ∧ repo sample_api = lit "owner/site".
Proof.
  destruct (setUser_client site_config false
              {| gl_config := site_config; gl_repo := lit "owner/site";
                 gl_branch := []; gl_token := [] |}
              (lit "secret")
              {| gl_config := site_config; gl_repo := lit "owner/site";
                 gl_branch := []; gl_token := lit "secret" |}
              sample_api eq_refl eq_refl) as (_ & _ & _ & Hrepo & Hbranch & _).
  split; [exact Hbranch|exact Hrepo].
Defined.

(** ** Reading *)

Section ReadMore.

Variable api : API.
Variable net : network.


(** X8. What [readFile] leaves alone: it sends at most one request; it
    changes no entry of the cache but the one of its hash; and without a
    hash, or when the request fails, the cache stays as it was. *)
Theorem readFile_frame store path sha branch_arg :
  let r := readFile api net store path sha branch_arg in
  (length (read_calls r) ≤ 1)%nat ∧
  (∀ k, (∀ h, sha = Some h → k ≠ cache_key h) → read_store r !! k = store !! k) ∧
  (sha = None → read_store r = store) ∧
  (∀ err, read_result r = Rejected err → read_store r = store).
Proof.
  unfold readFile, readFile_store.
  destruct (readFile_hit store sha) as [c|]; simpl;
    [split_and!; try done; lia|].
  destruct (request _) as [b|e]; simpl; split_and!; try done; try lia.
  - intros k Hk. destruct sha as [h|]; [|done].
    destruct (truthy_string h); [|done].
    rewrite lookup_insert_ne; [done|]. intros Heq. by apply (Hk h).
  - by intros ->.
Qed.


End ReadMore.


Lemma readFile_frame_witness :
  read_store (readFile sample_api (λ _, text_response (lit "X")) cache_h1
                (lit "b.md") None None) = cache_h1.
Proof.
  apply (proj1 (proj2 (proj2 (readFile_frame sample_api (λ _, text_response (lit "X"))
                                cache_h1 (lit "b.md") None None)))).
  reflexivity.
Defined.

(** ** What [request] gives *)

(** X10. [request] is fulfilled in two cases only: the response does not
    declare JSON, and the result is its text, whatever its status; or it
    declares JSON, its status is in the range 200-299 and its body parses,
    and the result is the parsed value. A transport failure never gives a
    result. *)
Theorem request_fulfilled f b :
  request f = Fulfilled b ↔
  ∃ r, f = Response r ∧
       ((is_json (contentType r) = false ∧ b = BodyText (text_body r)) ∨
        (is_json (contentType r) = true ∧ ok r = true ∧
         ∃ j, json_body r = Fulfilled j ∧ b = BodyJson j)).
Proof.
  split.
  - destruct f as [msg|r]; simpl; [done|].
    unfold parseJsonResponse.
    destruct (is_json (contentType r)) eqn:Hct.
    + destruct (json_body r) as [j|msg] eqn:Hj; [|done].
      destruct (ok r) eqn:Hok; simpl; [|done].
      intros [= <-]. exists r. split; [done|]. right. eauto.
    + intros [= <-]. exists r. split; [done|]. by left.
  - intros (r & -> & [[Hct ->]|(Hct & Hok & j & Hj & ->)]); simpl.
    + by rewrite Hct.
    + unfold parseJsonResponse. by rewrite Hct, Hj, Hok.
Qed.

(** X11. The failures of [request]. A transport failure gives an
    [APIError] with the message of the failure and no status. A response
    that fails gives an [APIError] with the status of the response and the
    tag ["GitLab"]: for a body that does not parse, even with a status in
    the success range, the message is that of the parser; the one exception
    is a body that parses to [null] under a failing status, where reading
    its message raises a [TypeError]. *)
Theorem request_rejected f e :
  request f = Rejected e →
  match f with
  | NetworkError msg => e = APIError (Some (JStr msg)) None "GitLab"
  | Response r =>
      is_json (contentType r) = true ∧
      match json_body r with
      | Rejected msg => e = APIError (Some (JStr msg)) (Some (status r)) "GitLab"
      | Fulfilled j =>
          ok r = false ∧
          match j with
          | JNull => e = NativeError "TypeError"
          | _ => e = APIError (json_message j) (Some (status r)) "GitLab"
          end
      end
  end.
Proof.
  destruct f as [msg|r]; simpl; [by intros [= <-]|].
  unfold parseJsonResponse.
  destruct (is_json (contentType r)); [|done].
  destruct (json_body r) as [j|msg]; [|by intros [= <-]].
  destruct (ok r); simpl; [done|].
  intros [= <-]. split; [done|]. split; [done|]. by destruct j.
Qed.

Lemma request_rejected_witness :
  is_json (contentType server_error) = true ∧ ok server_error = false ∧
  APIError None (Some 500) "GitLab"
  = APIError (json_message (JObj [])) (Some (status server_error)) "GitLab".
Proof.
  exact (request_rejected (Response server_error)
           (APIError None (Some 500) "GitLab") eq_refl).
Defined.

(** ** More on the sanitised path *)

Section SanitizeMore.

Variable upper_hi : N → N.

Lemma safeFilepath_filter p :
  safeFilepath upper_hi p = filter (λ ch, spec_allowed ch = true) p.
Proof.
  unfold safeFilepath. apply list_filter_iff. intros ch.
  by rewrite class_matches_spec.
Qed.

Lemma filter_allowed_id (p : jsstring) :
  Forall (λ ch, spec_allowed ch = true) p →
  filter (λ ch, spec_allowed ch = true) p = p.
Proof.
  induction 1 as [|c p Hc _ IH]; [done|].
  by rewrite filter_cons_True, IH.
Qed.

Lemma safeFilepath_allowed p :
  Forall (λ ch, spec_allowed ch = true) (safeFilepath upper_hi p).
Proof.
  rewrite safeFilepath_filter. apply Forall_forall.
  by intros c [Hc _]%list_elem_of_filter.
Qed.

(** X12. The result of [safeFilepath] holds allowed code units only;
    sanitising it again changes nothing; and a path is left as it is
    exactly when all its code units are allowed. *)
Theorem safeFilepath_idempotent p :
  Forall (λ ch, spec_allowed ch = true) (safeFilepath upper_hi p) ∧
  safeFilepath upper_hi (safeFilepath upper_hi p) = safeFilepath upper_hi p ∧
  (safeFilepath upper_hi p = p ↔ Forall (λ ch, spec_allowed ch = true) p).
Proof.
  split_and!.
  - apply safeFilepath_allowed.
  - rewrite (safeFilepath_filter (safeFilepath upper_hi p)).
    apply filter_allowed_id, safeFilepath_allowed.
  - split.
    + intros <-. apply safeFilepath_allowed.
    + intros Hp. rewrite safeFilepath_filter. by apply filter_allowed_id.
Qed.

(** X13. [safeFilepath] works code unit by code unit: the sanitised
    concatenation is the concatenation of the sanitised parts, and a code
    unit that is not allowed leaves no trace, so two paths that differ
    by such code units are committed to one and the same path. *)
Theorem safeFilepath_collides a b c content act raw raw' :
  spec_allowed c = false →
  safeFilepath upper_hi (a ++ b) = safeFilepath upper_hi a ++ safeFilepath upper_hi b ∧
  safeFilepath upper_hi (a ++ c :: b) = safeFilepath upper_hi (a ++ b) ∧
  file_path (entry_for upper_hi (TextFile (a ++ c :: b) raw) content act)
  = file_path (entry_for upper_hi (TextFile (a ++ b) raw') content act).
Proof.
  intros Hc.
  assert (safeFilepath upper_hi (a ++ c :: b) = safeFilepath upper_hi (a ++ b)) as Heq.
  { rewrite !safeFilepath_filter, !filter_app.
    rewrite filter_cons_False; [done|]. by rewrite Hc. }
  split_and!; [|done|done].
  by rewrite !safeFilepath_filter, filter_app.
Qed.

End SanitizeMore.

Lemma safeFilepath_collides_witness :
  safeFilepath (λ ch, ch) (lit "posts/my" ++ 32%N :: lit "post.md")
  = safeFilepath (λ ch, ch) (lit "posts/my" ++ lit "post.md").
Proof.
  apply (proj1 (proj2 (safeFilepath_collides (λ ch, ch) (lit "posts/my")
                         (lit "post.md") 32%N [] "create"%string [] [] eq_refl))).
Defined.

(** ** More on persisting *)

Section PersistMore.

Variable upper_hi : N → N.
Variable Base64_encode : jsstring → jsstring.
Variable api : API.
Variable net : network.

Local Abbreviation persist_one := (persistFile upper_hi Base64_encode api net).
Local Abbreviation persist_all := (persistFiles upper_hi Base64_encode api net).




(** X16. When the encoding of a file fails, no probe is sent. With an
    error that has no status 404 nothing at all is sent and the promise of
    the file is rejected with the error; an error with the status 404 goes
    to the handler of the probe: a commit with the action ["create"] and
    without content is sent. *)
Theorem persist_encoding_failure message p err :
  let r := persist_one message (AssetProxy p (Rejected err)) in
  (status_of err ≠ Some 404 → run_calls r = [] ∧ run_result r = Rejected err) ∧
  (status_of err = Some 404 →
   run_calls r
   = [commit_call api message
        [{| file_path := safeFilepath upper_hi p; content := None;
            encoding := None; action := Some "create"%string |}]]).
Proof.
  unfold persistFile, persist_rejected. simpl. split; intros Hst.
  - by rewrite decide_False.
  - by rewrite decide_True.
Qed.

Lemma all_fulfilled {E A} (ps : list (settled E A)) :
  (∀ p, p ∈ ps → rejection p = None) →
  Forall2 (λ p a, p = Fulfilled a) ps (omap fulfilment ps).
Proof.
  induction ps as [|p ps IH]; intros Hall; [constructor|].
  destruct p as [a|e].
  - simpl. constructor; [done|]. apply IH. intros q Hq. apply Hall. by right.
  - specialize (Hall (Rejected e) ltac:(by left)). done.
Qed.

(** X17. The promise that [persistFiles] returns, once every promise of
    a file has settled: it is fulfilled with one result per file, in the
    order of the files, each the result of the commit of that file, or it
    is rejected with the rejection of one of the files. *)
Theorem persistFiles_result_settles order entry mediaFiles message :
  (∀ i, (i < length mediaFiles + 1)%nat → i ∈ order) →
  match persistFiles_result upper_hi Base64_encode api net order entry
          mediaFiles message with
  | Fulfilled l =>
      Forall2 (λ r b, run_result r = Fulfilled b)
              (persist_all entry mediaFiles message) l
  | Rejected e =>
      ∃ i r, i ∈ order ∧ persist_all entry mediaFiles message !! i = Some r ∧
             run_result r = Rejected e
  end.
Proof.
  intros Hcover. unfold persistFiles_result, Promise_all.
  set (runs := persist_all entry mediaFiles message).
  assert (length runs = (length mediaFiles + 1)%nat) as Hlen.
  { subst runs. unfold persistFiles. rewrite length_map, length_app. simpl. lia. }
  clearbody runs.
  destruct (omap _ order) as [|e rest] eqn:Ho.
  - assert (Forall2 (λ p b, p = Fulfilled b) (run_result <$> runs)
                    (omap fulfilment (run_result <$> runs))) as Hall;
      [|by apply Forall2_fmap_l in Hall].
    apply all_fulfilled.
    intros p (i & Hi)%list_elem_of_lookup_1.
    destruct (rejection p) as [e|] eqn:Hp; [|done].
    assert (e ∈ @nil thrown) as Hin; [|by apply elem_of_nil in Hin].
    rewrite <- Ho. apply list_elem_of_omap. exists i. split.
    + apply Hcover. rewrite <- Hlen, <- (length_map run_result).
      by eapply lookup_lt_Some.
    + change ((run_result <$> runs) !! i ≫= rejection = Some e). by rewrite Hi.
  - assert (e ∈ e :: rest) as Hin by (by left).
    rewrite <- Ho in Hin.
    apply list_elem_of_omap in Hin as (i & Hi & He).
    change ((run_result <$> runs) !! i ≫= rejection = Some e) in He.
    rewrite list_lookup_fmap in He.
    destruct (runs !! i) as [r|] eqn:Hr; [|done]. simpl in He.
    exists i, r. split_and!; try done.
    destruct (run_result r) as [b|e']; simpl in He; [done|].
    by injection He as ->.
Qed.

End PersistMore.



Lemma persistFiles_result_settles_witness :
  Forall2 (λ r b, run_result r = Fulfilled b)
    (persistFiles (λ ch, ch) base64_ascii sample_api sample_net post [logo; photo]
       (lit "publish"))
    [BodyJson (JObj []); BodyJson (JObj []); BodyJson (JObj [])].
Proof.
  apply (persistFiles_result_settles (λ ch, ch) base64_ascii sample_api sample_net
           [2; 0; 1]%nat post [logo; photo] (lit "publish")).
  intros i Hi. simpl in Hi.
  destruct i as [|[|[|i]]]; [set_solver..|lia].
Defined.

Lemma persist_encoding_failure_witness :
  run_calls (persistFile (λ ch, ch) base64_ascii sample_api sample_net
               (lit "publish")
               (AssetProxy (lit "img/gone.png")
                  (Rejected (APIError None (Some 404) "GitLab"))))
  = [commit_call sample_api (lit "publish")
       [{| file_path := lit "img/gone.png"; content := None;
           encoding := None; action := Some "create"%string |}]].
Proof.
  apply (proj2 (persist_encoding_failure (λ ch, ch) base64_ascii sample_api
                  sample_net (lit "publish") (lit "img/gone.png")
                  (APIError None (Some 404) "GitLab"))).
  reflexivity.
Defined.

(** ** More on the batch fetch *)

Section FetchMore.

Variable api : API.
Variable files : list FileRef.

Local Abbreviation Inv := (Invariant files).

(** What an event does to the cache, to the log of requests and to the
    reads. *)
Lemma step_effects s e s' :
  step api files s e = Some s' →
  match e with
  | Tick =>
      store s' = store s ∧ calls s' = calls s ∧ result s' = result s ∧
      ∃ i rest, ticks s = i :: rest ∧ ticks s' = rest ∧ sem s' = sem s ∧
                reads s' = <[i := Lookup]> (reads s)
  | CacheAnswer i =>
      ∃ file, files !! i = Some file ∧ reads s !! i = Some Lookup ∧
              store s' = store s ∧
              match readFile_hit (store s) (fr_sha file) with
              | Some _ => calls s' = calls s ∧ reads s' = delete i (reads s)
              | None =>
                  calls s' = calls s ++ [readFile_call api (fr_path file) (branch api)] ∧
                  reads s' = <[i := Fetching]> (reads s) ∧
                  result s' = result s ∧ ticks s' = ticks s ∧ sem s' = sem s
              end
  | NetAnswer i f =>
      ∃ file, files !! i = Some file ∧ reads s !! i = Some Fetching ∧
              calls s' = calls s ∧ reads s' = delete i (reads s) ∧
              match request f with
              | Fulfilled data =>
                  store s' = readFile_store (store s) (fr_sha file) data
              | Rejected err =>
                  store s' = store s ∧
                  result s' = match result s with
                              | Some r => Some r
                              | None => Some (Rejected err)
                              end
              end
  end.
Proof.
  destruct e as [|i|i f]; simpl.
  - destruct (ticks s) as [|i rest]; [done|]. intros [= <-]. simpl. eauto 10.
  - destruct (reads s !! i) as [[|]|] eqn:Hi; try done.
    destruct (files !! i) as [file|] eqn:Hf; [|done].
    destruct (readFile_hit (store s) (fr_sha file)) as [cached|] eqn:Hhit.
    + unfold release. destruct (leave _) as [[sem' next]|]; [|done].
      intros [= <-]. exists file. rewrite Hhit. by split_and!.
    + intros [= <-]. exists file. rewrite Hhit. by split_and!.
  - destruct (reads s !! i) as [[|]|] eqn:Hi; try done.
    destruct (files !! i) as [file|] eqn:Hf; [|done].
    destruct (request f) as [data|err].
    + unfold release. destruct (leave _) as [[sem' next]|]; [|done].
      intros [= <-]. exists file. by split_and!.
    + unfold release. destruct (leave _) as [[sem' next]|]; [|done].
      intros [= <-]. exists file. by split_and!.
Qed.

Lemma fetchFiles_begins cached :
  store (fetchFiles files cached) = cached ∧ calls (fetchFiles files cached) = [] ∧
  ticks (fetchFiles files cached) = [] ∧
  (∀ i ph, reads (fetchFiles files cached) !! i = Some ph → ph = Lookup).
Proof.
  assert (∀ (l : list nat) s0,
    store s0 = cached → calls s0 = [] → ticks s0 = [] →
    (∀ i ph, reads s0 !! i = Some ph → ph = Lookup) →
    let s := foldl schedule_file s0 l in
    store s = cached ∧ calls s = [] ∧ ticks s = [] ∧
    (∀ i ph, reads s !! i = Some ph → ph = Lookup)) as Hfold.
  { induction l as [|k l IH]; intros s0 H1 H2 H3 H4; simpl; [done|].
    apply IH; unfold schedule_file, take;
      destruct (capacity (sem s0) <? current (sem s0) + 1); simpl; try done.
    intros i ph. rewrite lookup_insert. case_decide; [by intros [= <-]|apply H4]. }
  unfold fetchFiles. simpl.
  apply Hfold; simpl; try done; intros i ph; by rewrite lookup_empty.
Qed.

(** X18. When the promise of [fetchFiles] is fulfilled, the batch is over:
    the list has one element per file, no read is in progress or waiting,
    every permit is back (the counter of the semaphore is 0), and no read
    of the run has failed. *)
Theorem fetch_fulfilled_drained cached trace s l :
  run api files (fetchFiles files cached) trace = Some s →
  result s = Some (Fulfilled l) →
  length l = length files ∧ reads s = ∅ ∧ waiting s = [] ∧
  current (sem s) = 0 ∧ first_failure trace = None.
Proof.
  intros Hrun Hl.
  destruct (fetchFiles_inv files cached) as [Hinv0 Hnr].
  pose proof (run_inv _ _ _ _ _ Hinv0 Hrun) as Hinv.
  pose proof Hinv as [_ Hcur _ _ Hw Hr _ Hlen Hres].
  pose proof (Hres l Hl) as Hm.
  assert (reads s = ∅) as Hreads.
  { apply map_empty. intros i. destruct (reads s !! i) as [ph|] eqn:Hi; [|done].
    destruct (mapM_id_slot _ _ i Hm). apply Hr. by rewrite Hi. }
  assert (waiting s = []) as Hwait.
  { destruct (waiting s) as [|i w] eqn:Hws; [done|].
    destruct (mapM_id_slot _ _ i Hm). apply Hw. by left. }
  split_and!; try done.
  - apply mapM_Some_1, Forall2_length in Hm. lia.
  - unfold waiting in Hwait. apply app_eq_nil in Hwait as [Ht _].
    rewrite Hcur. unfold permits_held. rewrite Ht, Hreads, map_size_empty. done.
  - destruct (first_failure trace) as [err|] eqn:Hfail; [|done].
    rewrite (run_first_failure _ _ _ _ _ _ Hinv0 Hnr Hrun Hfail) in Hl. done.
Qed.


(** Files that are all in the cache: no request goes out. *)
Lemma run_all_cached cached s trace s' :
  (∀ file, file ∈ files → is_Some (readFile_hit cached (fr_sha file))) →
  Inv 0 s → store s = cached → calls s = [] →
  (∀ i, reads s !! i ≠ Some Fetching) → (∀ x, result s ≠ Some (Rejected x)) →
  run api files s trace = Some s' →
  store s' = cached ∧ calls s' = [] ∧ (∀ x, result s' ≠ Some (Rejected x)) ∧
  Forall (λ e, ∀ i f, e ≠ NetAnswer i f) trace.
Proof.
  intros Hall. revert s.
  induction trace as [|e trace IH]; intros s Hinv Hst Hcs Hnf Hnr; simpl.
  - by intros [= <-].
  - destruct (step api files s e) as [s1|] eqn:Hstep; [|done].
    destruct (step_inv _ _ _ _ _ Hinv Hstep) as [Hinv1 Ho].
    pose proof (step_effects s e s1 Hstep) as Heff.
    intros Hrun.
    assert (store s1 = cached ∧ calls s1 = [] ∧
            (∀ i, reads s1 !! i ≠ Some Fetching) ∧
            (∀ x, result s1 ≠ Some (Rejected x)) ∧
            (∀ i f, e ≠ NetAnswer i f)) as (Hst1 & Hcs1 & Hnf1 & Hnr1 & He).
    { destruct e as [|i|i f].
      - destruct Heff as (Hs & Hc & Hr & j & rest & _ & _ & _ & Hrd).
        split_and!; try congruence.
        intros i. rewrite Hrd, lookup_insert. case_decide; [done|apply Hnf].
      - destruct Heff as (file & Hf & _ & Hs & Heff).
        destruct (Hall file) as [c Hc]; [by eapply list_elem_of_lookup_2|].
        rewrite Hst, Hc in Heff. destruct Heff as [Hcalls Hrd].
        split_and!; try congruence.
        + intros j. rewrite Hrd, lookup_delete. case_decide; [done|apply Hnf].
        + inversion Ho as [| |e j file' data s2 _ _ _ _ _ _ Hres|]; subst.
          * congruence.
          * intros x. rewrite Hres.
            destruct (result s) as [r|] eqn:Hr; [apply Hnr|].
            unfold gather. by intros (l' & _ & [=])%fmap_Some.
      - destruct Heff as (file & _ & Hfetch & _). by destruct (Hnf i). }
    destruct (IH s1 Hinv1 Hst1 Hcs1 Hnf1 Hnr1 Hrun) as (? & ? & ? & ?).
    split_and!; try done. by constructor.
Qed.

(** X19. A batch whose files are all in the cache, each under its hash and
    with a truthy content, is served from the cache: in every state that
    the batch can reach no request has gone out, the cache is as it was,
    the promise is not rejected, and the network had no part in the run. *)
Theorem fetch_all_cached cached trace s :
  (∀ file, file ∈ files → is_Some (readFile_hit cached (fr_sha file))) →
  run api files (fetchFiles files cached) trace = Some s →
  calls s = [] ∧ store s = cached ∧ (∀ x, result s ≠ Some (Rejected x)) ∧
  Forall (λ e, ∀ i f, e ≠ NetAnswer i f) trace.
Proof.
  intros Hall Hrun.
  destruct (fetchFiles_inv files cached) as [Hinv0 Hnr].
  destruct (fetchFiles_begins cached) as (Hst & Hcs & _ & Hlook).
  destruct (run_all_cached cached _ trace s Hall Hinv0 Hst Hcs) as (? & ? & ? & ?);
    try done.
  intros i Hi. by specialize (Hlook i Fetching Hi).
Qed.

End FetchMore.


Lemma fetch_all_cached_witness :
  calls (state_after [a_md] cache_h1 [CacheAnswer 0%nat]) = [].
Proof.
  refine (proj1 (fetch_all_cached sample_api [a_md] cache_h1 [CacheAnswer 0%nat]
                   _ _ _)).
  - intros file ->%list_elem_of_singleton. by eexists.
  - vm_compute. reflexivity.
Defined.



(** ** The work of a batch *)

Section Counting.

Implicit Types m : gmap nat phase.

Local Abbreviation count m := (size (filter (λ kv : nat * phase, looking kv.2 = true) m)).

Lemma count_insert_Lookup m i :
  m !! i = None → count (<[i := Lookup]> m) = S (count m).
Proof.
  intros Hi. rewrite map_filter_insert_True by done.
  apply map_size_insert_None, map_lookup_filter_None. by left.
Qed.

Lemma count_Lookup_positive m i : m !! i = Some Lookup → count m ≠ 0%nat.
Proof.
  intros Hi. apply (map_size_ne_0_lookup_2 _ i). exists Lookup.
  by apply map_lookup_filter_Some.
Qed.

Lemma count_delete_Lookup m i :
  m !! i = Some Lookup → S (count (delete i m)) = count m.
Proof.
  intros Hi. pose proof (count_Lookup_positive m i Hi).
  rewrite map_filter_delete, map_size_delete_Some; [lia|].
  exists Lookup. by apply map_lookup_filter_Some.
Qed.

Lemma count_delete_Fetching m i :
  m !! i = Some Fetching → count (delete i m) = count m.
Proof.
  intros Hi. rewrite map_filter_delete, map_size_delete_None; [done|].
  apply map_lookup_filter_None. right. intros ph Hph.
  rewrite Hi in Hph. by injection Hph as <-.
Qed.

Lemma count_insert_Fetching m i :
  m !! i = Some Lookup → S (count (<[i := Fetching]> m)) = count m.
Proof.
  intros Hi. rewrite map_filter_insert_False by done.
  by apply count_delete_Lookup.
Qed.

Lemma size_delete_Some m i ph : m !! i = Some ph → S (size (delete i m)) = size m.
Proof.
  intros Hi. pose proof (map_size_ne_0_lookup_2 m i ltac:(eauto)).
  rewrite map_size_delete_Some by eauto. lia.
Qed.

End Counting.

(** What [sem.leave()] does: the permit goes back, or on to the head of the
    queue. *)
Lemma leave_shape sem0 sem' next :
  leave sem0 = Some (sem', next) →
  capacity sem' = capacity sem0 ∧
  ((next = None ∧ queue sem' = queue sem0 ∧ current sem' = current sem0 - 1 ∧
    (queue sem0 = [] ∨ capacity sem0 < current sem0)) ∨
   (∃ j, next = Some j ∧ queue sem0 = j :: queue sem' ∧
         current sem' = current sem0)).
Proof.
  unfold leave. destruct (queue sem0) as [|j rest] eqn:Hq.
  - destruct (Z.ltb_spec (current sem0 - 1) 0); [done|].
    intros [= <- <-]. simpl. split; [done|]. left. by split_and!; [..|left].
  - destruct (Z.ltb_spec (capacity sem0) (current sem0 - 1 + 1)).
    + intros [= <- <-]. simpl. split; [done|]. left.
      split_and!; try done. right. lia.
    + intros [= <- <-]. simpl. split; [done|]. right. exists j.
      split_and!; try done. lia.
Qed.

Lemma release_accounting t s' :
  release t = Some s' → current (sem t) ≤ capacity (sem t) →
  (queue (sem t) ≠ [] → current (sem t) = capacity (sem t)) →
  reads s' = reads t ∧ values s' = values t ∧ result s' = result t ∧
  calls s' = calls t ∧ waiting s' = waiting t ∧
  (queue (sem s') ≠ [] → current (sem s') = capacity (sem s')).
Proof.
  unfold release. destruct (leave (sem t)) as [[sem' next]|] eqn:Hleave; [|done].
  intros [= <-] Hle Hfull. unfold waiting. simpl.
  apply leave_shape in Hleave
    as (Hcap & [(-> & Hq & Hcur & Hwhy)|(j & -> & Hq & Hcur)]).
  - split_and!; try done.
    + simpl. by rewrite app_nil_r, Hq.
    + intros Hne. destruct Hwhy as [Hnil|Hlt]; [|lia]. by rewrite Hq in Hne.
  - split_and!; try done.
    + simpl. by rewrite Hq, <- app_assoc.
    + intros _. rewrite Hcur, Hcap. apply Hfull. by rewrite Hq.
Qed.

Section Accounts.

Variable api : API.
Variable files : list FileRef.

Local Abbreviation Inv := (Invariant files).
Local Abbreviation Acc := (Accounting files).

Lemma gather_None vs : gather vs = None → mapM id vs = None.
Proof. unfold gather. by intros ?%fmap_None. Qed.

(** The end of a read whose promise is fulfilled. *)
Lemma fulfilled_accounting s i file data t s' :
  Inv 0 s → Acc s → is_Some (reads s !! i) → files !! i = Some file →
  reads t = delete i (reads s) → values t = values s → result t = result s →
  calls t = calls s → sem t = sem s → ticks t = ticks s →
  release (resolve i file data t) = Some s' →
  (length (calls s') + length (waiting s') ≤ length (calls s) + length (waiting s))%nat ∧
  reads s' = delete i (reads s) ∧ length (waiting s') = length (waiting s) ∧
  (queue (sem s') ≠ [] → current (sem s') = capacity (sem s')) ∧
  (result s' = None → mapM id (values s') = None) ∧
  (result s' = None → ∀ k, values s' !! k = Some None →
   k ∈ waiting s' ∨ is_Some (reads s' !! k)).
Proof.
  intros [_ _ Hle _ _ Hr _ _ _] [_ Hfull Huns Hpend] Hi Hf Hrt Hvt Hrest Hct Hst Htt Hrel.
  destruct (release_accounting _ _ Hrel) as (Hr' & Hv' & Hres' & Hc' & Hw' & Hfull').
  { simpl. by rewrite Hst. }
  { simpl. by rewrite Hst. }
  simpl in *.
  assert (waiting s' = waiting s) as Hws.
  { rewrite Hw'. unfold waiting. simpl. by rewrite Hst, Htt. }
  assert (result s' = None → result s = None ∧
          mapM id (<[i := Some {| ff_file := file; ff_data := data |}]> (values s)) = None)
    as Hnone.
  { rewrite Hres', Hrest, Hvt. destruct (result s); [done|].
    intros ?%gather_None. done. }
  split_and!; try done.
  - rewrite Hc', Hct, Hws. lia.
  - by rewrite Hr'.
  - by rewrite Hws.
  - intros Hn. rewrite Hv', Hvt. by apply Hnone.
  - intros Hn k. rewrite Hv', Hvt, Hr', Hrt, Hws.
    destruct (Hnone Hn) as [Hn0 _].
    pose proof (Hr i Hi) as Hvi.
    destruct (decide (k = i)) as [->|Hki].
    + rewrite list_lookup_insert_eq by (by eapply lookup_lt_Some). done.
    + rewrite list_lookup_insert_ne by done. intros Hk.
      destruct (Hpend Hn0 k Hk) as [?|?]; [by left|right].
      by rewrite lookup_delete_ne.
Qed.

(** Every event keeps the accounts and takes one from what is left. *)
Lemma step_accounting s e s' :
  Inv 0 s → Acc s → step api files s e = Some s' →
  Acc s' ∧ (events_left s' < events_left s)%nat.
Proof.
  intros Hinv Hacc Hstep.
  pose proof Hinv as [_ _ Hle _ Hw Hr _ _ _].
  pose proof Hacc as [Hcalls Hfull Huns Hpend].
  unfold events_left, lookups in *.
  destruct e as [|i|i f]; simpl in Hstep.
  - destruct (ticks s) as [|j rest] eqn:Ht; [done|]. injection Hstep as <-.
    destruct (Hw j) as [Hrj _]; [unfold waiting; rewrite Ht; by left|].
    unfold waiting in *. rewrite Ht in *. simpl in *.
    rewrite count_insert_Lookup, map_size_insert_None by done.
    split; [|lia]. split; simpl; unfold waiting, lookups; simpl; try done.
    + rewrite count_insert_Lookup by done. lia.
    + intros Hn k Hk. destruct (decide (k = j)) as [->|Hkj].
      * right. by rewrite lookup_insert_eq.
      * destruct (Hpend Hn k Hk) as [Hin|?].
        -- left. apply elem_of_cons in Hin as [?|?]; done.
        -- right. by rewrite lookup_insert_ne.
  - destruct (reads s !! i) as [[|]|] eqn:Hi; try done.
    destruct (files !! i) as [file|] eqn:Hf; [|done].
    destruct (readFile_hit (store s) (fr_sha file)) as [cached|].
    + destruct (fulfilled_accounting s i file cached (finish i s) s' Hinv Hacc)
        as (H1 & H2 & H3 & H4 & H5 & H6); try done.
      rewrite H2, H3.
      pose proof (count_delete_Lookup _ _ Hi). pose proof (size_delete_Some _ _ _ Hi).
      split; [|lia]. split; unfold lookups; try done. rewrite H2. lia.
    + injection Hstep as <-. simpl. unfold waiting. simpl.
      pose proof (count_insert_Fetching _ _ Hi).
      rewrite map_size_insert_Some by eauto.
      split; [|lia]. split; simpl; unfold waiting, lookups; simpl; try done.
      * rewrite length_app. simpl. unfold waiting in *. lia.
      * intros Hn k Hk. destruct (Hpend Hn k Hk) as [?|?]; [by left|right].
        rewrite lookup_insert. case_decide; [by eexists|done].
  - destruct (reads s !! i) as [[|]|] eqn:Hi; try done.
    destruct (files !! i) as [file|] eqn:Hf; [|done].
    pose proof (count_delete_Fetching _ _ Hi). pose proof (size_delete_Some _ _ _ Hi).
    destruct (request f) as [data|err].
    + destruct (fulfilled_accounting s i file data (remember file data (finish i s)) s'
                  Hinv Hacc) as (H1 & H2 & H3 & H4 & H5 & H6); try done.
      rewrite H2, H3.
      split; [|lia]. split; unfold lookups; try done. rewrite H2. lia.
    + apply fmap_Some in Hstep as (s1 & Hrel & ->).
      destruct (release_accounting _ _ Hrel) as (Hr' & Hv' & Hres' & Hc' & Hw' & Hfull');
        try done.
      simpl in *.
      assert (waiting s1 = waiting s) as Hws by (by rewrite Hw').
      unfold waiting in *. simpl in *. rewrite Hr', Hws.
      split; [|lia]. split; simpl; unfold waiting, lookups; simpl; try done.
      * rewrite Hc', Hr', Hws. lia.
      * rewrite Hres'. by destruct (result s).
      * rewrite Hres'. by destruct (result s).
Qed.

Lemma run_accounting s trace s' :
  Inv 0 s → Acc s → run api files s trace = Some s' →
  Inv 0 s' ∧ Acc s' ∧ (events_left s' + length trace ≤ events_left s)%nat.
Proof.
  revert s. induction trace as [|e trace IH]; intros s Hinv Hacc; simpl.
  - intros [= <-]. split_and!; try done. lia.
  - destruct (step api files s e) as [s1|] eqn:Hstep; [|done].
    destruct (step_inv _ _ _ _ _ Hinv Hstep) as [Hinv1 _].
    destruct (step_accounting s e s1 Hinv Hacc Hstep) as [Hacc1 Hlt].
    intros Hrun. destruct (IH s1 Hinv1 Hacc1 Hrun) as (? & ? & ?).
    split_and!; try done. lia.
Qed.

(** The loop of lines 64-74 starts or queues every file. *)
Lemma schedule_counts cached s0 k :
  Scheduled files cached 0 s0 → reads s0 = ∅ → queue (sem s0) = [] →
  (k ≤ length files)%nat →
  let s := foldl schedule_file s0 (seq 0 k) in
  (length (queue (sem s)) + size (reads s) = k)%nat ∧
  (∀ i ph, reads s !! i = Some ph → ph = Lookup) ∧
  (queue (sem s) ≠ [] → current (sem s) = capacity (sem s)) ∧
  (∀ i, (i < k)%nat → i ∈ queue (sem s) ∨ is_Some (reads s !! i)).
Proof.
  intros H0 Hr0 Hq0. induction k as [|k IH]; intros Hk.
  - simpl. rewrite Hr0, Hq0, map_size_empty. split_and!; try done.
    intros i Hi. lia.
  - rewrite seq_S, foldl_app. simpl.
    destruct IH as (Hcount & Hlook & Hfull & Hcover); [lia|]. simpl in *.
    pose proof (schedule_all files cached s0 k H0 ltac:(lia))
      as [[_ _ Hle _ _ _ _ _ _] _ _ Hrd _ _ _ _].
    set (s := foldl schedule_file s0 (seq 0 k)) in *.
    assert (reads s !! k = None) as Hrk.
    { destruct (reads s !! k) eqn:E; [|done]. specialize (Hrd k ltac:(eauto)). lia. }
    unfold schedule_file, take.
    destruct (Z.ltb_spec (capacity (sem s)) (current (sem s) + 1)); simpl.
    + split_and!; try done.
      * rewrite length_app. simpl. lia.
      * intros _. lia.
      * intros i Hi. destruct (decide (i = k)) as [->|Hik].
        -- left. apply elem_of_app. right. by left.
        -- destruct (Hcover i ltac:(lia)) as [?|?]; [left|by right].
           apply elem_of_app. by left.
    + split_and!.
      * rewrite map_size_insert_None by done. lia.
      * intros i ph. rewrite lookup_insert. case_decide; [by intros [= <-]|apply Hlook].
      * intros Hne. specialize (Hfull Hne). lia.
      * intros i Hi. destruct (decide (i = k)) as [->|Hik].
        -- right. by rewrite lookup_insert_eq.
        -- destruct (Hcover i ltac:(lia)) as [?|?]; [by left|right].
           by rewrite lookup_insert_ne.
Qed.

Lemma fetchFiles_accounting cached :
  Acc (fetchFiles files cached) ∧
  (events_left (fetchFiles files cached) ≤ 3 * length files)%nat.
Proof.
  unfold fetchFiles.
  match goal with |- context [foldl schedule_file ?s0 _] => set (s0' := s0) end.
  assert (Scheduled files cached 0 s0') as H0.
  { split; simpl; try done; [|by intros i ?%elem_of_nil|].
    - split; simpl; unfold waiting, permits_held; simpl; try done.
      + apply NoDup_nil_2.
      + by intros i ?%elem_of_nil.
      + intros i. rewrite lookup_empty. by intros [? ?].
      + intros i v [? _]%lookup_replicate. done.
      + by rewrite length_replicate.
    - intros i. rewrite lookup_empty. by intros [? ?]. }
  destruct (schedule_counts cached s0' (length files) H0 eq_refl eq_refl ltac:(lia))
    as (Hcount & Hlook & Hfull & Hcover).
  pose proof (schedule_all files cached s0' (length files) H0 ltac:(lia))
    as [_ Ht _ _ Hvs _ _ Hcs].
  set (s1 := foldl schedule_file s0' (seq 0 (length files))) in *.
  assert (lookups s1 = size (reads s1)) as Hlk.
  { unfold lookups. rewrite map_filter_id; [done|].
    intros i ph Hi. simpl. by rewrite (Hlook i ph Hi). }
  clearbody s1. clear H0.
  split; [split|]; unfold events_left, waiting, lookups in *; simpl.
  - rewrite Ht, Hcs, Hlk. simpl. lia.
  - done.
  - apply gather_None.
  - intros _ i Hi. rewrite Ht. simpl. apply Hcover.
    rewrite Hvs in Hi. by apply lookup_replicate in Hi as [_ ?].
  - rewrite Ht, Hlk. simpl. lia.
Qed.


(** X22. A batch ends: no run of [fetchFiles] has more than three events
    for each file (the tick of a task that was queued, the answer of the
    cache, the answer of the network). *)
Theorem fetch_terminates cached trace s :
  run api files (fetchFiles files cached) trace = Some s →
  (length trace ≤ 3 * length files)%nat.
Proof.
  intros Hrun.
  destruct (run_accounting _ trace s (proj1 (fetchFiles_inv files cached))
              (proj1 (fetchFiles_accounting cached)) Hrun) as (_ & _ & Hleft).
  pose proof (proj2 (fetchFiles_accounting cached)). lia.
Qed.


End Accounts.


Lemma fetch_terminates_witness : (length batch_trace ≤ 3 * length batch)%nat.
Proof.
  refine (fetch_terminates sample_api batch ∅ batch_trace
            (state_after batch ∅ batch_trace) _).
  vm_compute. reflexivity.
Defined.


Lemma fetch_fulfilled_drained_witness :
  current (sem (state_after [a_md; b_md] cache_h1 reversed_trace)) = 0.
Proof.
  refine (proj1 (proj2 (proj2 (proj2
            (fetch_fulfilled_drained sample_api [a_md; b_md] cache_h1 reversed_trace
               _ _ _ _))))).
  - vm_compute. reflexivity.
  - vm_compute. reflexivity.
Defined.
